(** * Inactive-region highlighting (src/inactive-regions.ts)

    A shallow embedding of the token pipeline of the clangd extension:
    the legend scan of [InactiveRegionsFeature.initialize], the range
    extraction [computeInactiveRanges], the type rewrite
    [replaceInactiveRanges], the delta patcher [applyDelta] with its
    helper [copy], and the two middleware entry points
    [provideDocumentSemanticTokens] and
    [provideDocumentSemanticTokensEdits].

    Modelling choices.
    - A [Uint32Array] is a reference into a heap of integer lists whose
      elements lie in [0, 2^32).  Reading outside the array gives
      [undefined]; writing outside is ignored; a write converts the
      value with ToUint32.
    - JavaScript numbers that appear here are sums of array elements and
      array lengths; they are modelled as exact integers, together with
      the two non-numbers [undefined] and [NaN] that out-of-range reads
      can produce.  The code adds doubles, which agree with the exact
      sum as long as the result is at most 2^53; the theorems that
      equate coordinates or the announced length of a patch with exact
      sums bound their input so that every sum stays in that range, and
      say so.
    - An allocation that the engine refuses because of its size is not
      modelled: [new Uint32Array(n)] fails here only for a negative
      [n].
    - The two [WeakMap]s are finite maps keyed by document identity.
    - The module-level variables and the maps are fields of one [state]
      that every entry point threads. *)

From stdpp Require Import gmap strings list fin_maps.
From Stdlib Require Import ZArith Lia Sorted.

Local Open Scope Z_scope.

(** ** JavaScript values that the code manipulates *)

Module JS.

Inductive value : Type :=
| Undefined
| NaN
| Num (z : Z).

#[global] Instance value_eq_dec : EqDecision value.
Proof. solve_decision. Defined.

(** [a + b] on numbers; [undefined] converts to [NaN], which absorbs.
    The sum is the exact one: it is the double the code computes
    whenever it is at most 2^53 in absolute value. *)
Definition add (a b : value) : value :=
  match a, b with
  | Num x, Num y => Num (x + y)
  | _, _ => NaN
  end.

(** [a === b] *)
Definition strict_eq (a b : value) : bool :=
  match a, b with
  | Undefined, Undefined => true
  | Num x, Num y => x =? y
  | _, _ => false
  end.

(** [a == b]; both sides are numbers or [undefined], so the loose
    comparison performs no conversion. *)
Definition loose_eq (a b : value) : bool :=
  match a, b with
  | Undefined, Undefined => true
  | Num x, Num y => x =? y
  | _, _ => false
  end.

(** ToUint32, applied by every store into a [Uint32Array]. *)
Definition ToUint32 (v : value) : Z :=
  match v with
  | Num z => z mod 2 ^ 32
  | Undefined | NaN => 0
  end.

End JS.

(** ** Contents of a [Uint32Array] *)

Definition u32 (z : Z) : Prop := 0 <= z < 2 ^ 32.

Definition len_of {A : Type} (a : list A) : Z := Z.of_nat (length a).

Abbreviation len := (@len_of Z).

(** [a[i]] *)
Definition load (a : list Z) (i : Z) : JS.value :=
  if 0 <=? i then
    match a !! Z.to_nat i with
    | Some x => JS.Num x
    | None => JS.Undefined
    end
  else JS.Undefined.

(** [a[i] = v] *)
Definition store (a : list Z) (i : Z) (v : JS.value) : list Z :=
  if 0 <=? i then <[Z.to_nat i := JS.ToUint32 v]> a else a.

(** [new Uint32Array(n)] for [0 <= n] *)
Definition zeros (n : Z) : list Z := replicate (Z.to_nat n) 0.

(** [dest.set(src)] for [length src <= length dest] *)
Definition typed_set (dest src : list Z) : list Z :=
  src ++ drop (length src) dest.

(** ** [copy] *)

Definition copy (src : list Z) (srcOffset : Z) (dest : list Z)
    (destOffset : Z) (count : Z) : list Z :=
  fold_left
    (fun dest i =>
       store dest (destOffset + Z.of_nat i) (load src (srcOffset + Z.of_nat i)))
    (seq 0 (Z.to_nat count)) dest.

(** ** Protocol records *)

Record SemanticTokensEdit : Type := mkEdit {
  start : Z;
  deleteCount : Z;
  edit_data : option (list Z)
}.

(** ** [applyDelta], on array contents *)

Definition deltaLength_of (edits : list SemanticTokensEdit) : Z :=
  fold_left
    (fun deltaLength edit =>
       deltaLength +
       ((match edit_data edit with Some d => len d | None => 0 end)
        - deleteCount edit))
    edits 0.

Definition applyDelta_step (srcData : list Z) (acc : Z * Z * list Z)
    (edit : SemanticTokensEdit) : Z * Z * list Z :=
  let '(srcLastStart, destLastStart, destData) := acc in
  let copyCount := srcLastStart - (start edit + deleteCount edit) in
  let '(destLastStart, destData) :=
    if copyCount =? 0 then (destLastStart, destData)
    else (destLastStart - copyCount,
          copy srcData (srcLastStart - copyCount) destData
               (destLastStart - copyCount) copyCount) in
  let '(destLastStart, destData) :=
    match edit_data edit with
    | Some d =>
        (destLastStart - len d,
         copy d 0 destData (destLastStart - len d) (len d))
    | None => (destLastStart, destData)
    end in
  (start edit, destLastStart, destData).

Inductive exn : Type := RangeError.

Inductive outcome (A : Type) : Type :=
| Ok (a : A)
| Throw (e : exn).
Arguments Ok {A} a.
Arguments Throw {A} e.

Definition applyDelta_data (srcData : list Z)
    (edits : list SemanticTokensEdit) : outcome (list Z) :=
  let deltaLength := deltaLength_of edits in
  if len srcData + deltaLength <? 0 then Throw RangeError
  else
    let destData := zeros (len srcData + deltaLength) in
    let '(srcLastStart, _, destData) :=
      fold_left (applyDelta_step srcData) (rev edits)
                (len srcData, len destData, destData) in
    Ok (if 0 <? srcLastStart then copy srcData 0 destData 0 srcLastStart
        else destData).


(** ** Ranges handed to the editor

    A [Range] records the two positions passed to the host's
    constructor, in the order the code passes them. *)

Record Position : Type := mkPosition {
  line : JS.value;
  character : JS.value
}.

Record Range : Type := mkRange {
  range_start : Position;
  range_end : Position
}.

(** ** [computeInactiveRanges]

    [tokenCount] is the real quotient [data.length / 5], so the loop
    guard [tokenIndex < tokenCount] holds for exactly the
    [tokenIterations] first naturals: a trailing partial record is
    visited too. *)

Definition tokenIterations (n : Z) : nat := Z.to_nat ((n + 4) / 5).

Definition computeInactiveRanges_step (sentinel : JS.value) (data : list Z)
    (acc : JS.value * JS.value * list Range) (tokenIndex : nat)
    : JS.value * JS.value * list Range :=
  let '(lastLineNumber, lastStartCharacter, inactiveRanges) := acc in
  let offset := 5 * Z.of_nat tokenIndex in
  let deltaLine := load data offset in
  let deltaCharacter := load data (offset + 1) in
  let lineNumber := JS.add lastLineNumber deltaLine in
  let startCharacter :=
    if JS.strict_eq deltaLine (JS.Num 0)
    then JS.add lastStartCharacter deltaCharacter
    else deltaCharacter in
  let length := load data (offset + 2) in
  let tokenTypeIndex := load data (offset + 3) in
  let inactiveRanges :=
    if JS.loose_eq tokenTypeIndex sentinel
    then inactiveRanges ++
         [mkRange (mkPosition lineNumber startCharacter)
                  (mkPosition lineNumber (JS.add startCharacter length))]
    else inactiveRanges in
  (lineNumber, startCharacter, inactiveRanges).

Definition computeInactiveRanges (sentinel : JS.value) (data : list Z)
    : list Range :=
  (fold_left (computeInactiveRanges_step sentinel data)
             (seq 0 (tokenIterations (len data)))
             (JS.Num 0, JS.Num 0, [])).2.

(** ** [replaceInactiveRanges], on array contents *)

Definition replaceInactiveRanges_step (sentinel replaceIndex : JS.value)
    (data : list Z) (tokenIndex : nat) : list Z :=
  let offset := 5 * Z.of_nat tokenIndex in
  if JS.loose_eq (load data (offset + 3)) sentinel
  then store data (offset + 3) replaceIndex
  else data.

Definition replaceInactiveRanges_data (sentinel replaceIndex : JS.value)
    (src : list Z) : list Z :=
  let data := typed_set (zeros (len src)) src in
  fold_left (replaceInactiveRanges_step sentinel replaceIndex)
            (seq 0 (tokenIterations (len data))) data.

(** ** Objects, the heap and the module state *)

Abbreviation loc := positive (only parsing).
Abbreviation TextDocument := positive (only parsing).

Record SemanticTokens : Type := mkTokens {
  resultId : option string;
  data : loc
}.

Record SemanticTokensEdits : Type := mkEdits {
  edits_resultId : option string;
  edits : list SemanticTokensEdit
}.

Record TextEditor : Type := mkEditor {
  editor_id : positive;
  document : TextDocument
}.

Record SemanticTokensLegend : Type := mkLegend {
  tokenTypes : list string
}.

Record ServerCapabilities : Type := mkCapabilities {
  semanticTokensProvider : option SemanticTokensLegend
}.

Record state : Type := mkState {
  inactiveCodeTokenTypeIndex : JS.value;
  inactiveCodeTokenTypeReplaceIndex : JS.value;
  heap : gmap loc (list Z);
  lastTokens : gmap TextDocument SemanticTokens;
  lastInactiveRanges : gmap TextDocument (list Range);
  decorations : gmap positive (list Range)
}.

(** The state in which the module is loaded. *)
Definition initial_state (h : gmap loc (list Z)) : state :=
  mkState JS.Undefined JS.Undefined h ∅ ∅ ∅.

Definition deref (h : gmap loc (list Z)) (l : loc) : list Z :=
  default [] (h !! l).

Definition alloc (h : gmap loc (list Z)) (a : list Z)
    : loc * gmap loc (list Z) :=
  let l := fresh (dom h) in (l, <[l := a]> h).

Definition with_heap (st : state) (h : gmap loc (list Z)) : state :=
  mkState (inactiveCodeTokenTypeIndex st)
          (inactiveCodeTokenTypeReplaceIndex st)
          h (lastTokens st) (lastInactiveRanges st) (decorations st).

(** ** [InactiveRegionsFeature.initialize] *)

Definition scan_step (tokenTypes : list string) (index : JS.value) (i : nat)
    : JS.value :=
  match tokenTypes !! i with
  | Some name =>
      if String.eqb name "comment" then JS.Num (Z.of_nat i) else index
  | None => index
  end.

Definition scan_legend (tokenTypes : list string) (index : JS.value)
    : JS.value :=
  fold_left (scan_step tokenTypes) (seq 0 (length tokenTypes)) index.

Definition initialize (st : state) (capabilities : ServerCapabilities)
    : state :=
  match semanticTokensProvider capabilities with
  | Some provider =>
      let tokenTypes := tokenTypes provider in
      mkState (scan_legend tokenTypes (inactiveCodeTokenTypeIndex st))
              (JS.Num (len_of tokenTypes))
              (heap st) (lastTokens st) (lastInactiveRanges st)
              (decorations st)
  | None => st
  end.

(** ** [applyInactiveRegions] *)

Definition applyInactiveRegions (st : state) (editors : list TextEditor)
    : state :=
  mkState (inactiveCodeTokenTypeIndex st)
          (inactiveCodeTokenTypeReplaceIndex st)
          (heap st) (lastTokens st) (lastInactiveRanges st)
          (fold_left
             (fun decos editor =>
                match lastInactiveRanges st !! document editor with
                | Some inactiveRanges =>
                    <[editor_id editor := inactiveRanges]> decos
                | None => decos
                end)
             editors (decorations st)).

(** ** [replaceInactiveRanges]

    The copy is a new array: it is filled while still local and enters
    the heap at an address that was not in use. *)

Definition replaceInactiveRanges (st : state) (tokens : SemanticTokens)
    : state * SemanticTokens :=
  let copied :=
    replaceInactiveRanges_data (inactiveCodeTokenTypeIndex st)
                               (inactiveCodeTokenTypeReplaceIndex st)
                               (deref (heap st) (data tokens)) in
  let '(l, h) := alloc (heap st) copied in
  (with_heap st h, mkTokens (resultId tokens) l).

(** ** [provideDocumentSemanticTokens] *)

(** [visibleTextEditors.forEach(e => { if (e.document == document) ... })] *)
Definition decorate_visible (visibleTextEditors : list TextEditor)
    (doc : TextDocument) (inactiveRanges : list Range)
    (decos : gmap positive (list Range)) : gmap positive (list Range) :=
  fold_left
    (fun decos e =>
       if decide (document e = doc)
       then <[editor_id e := inactiveRanges]> decos
       else decos)
    visibleTextEditors decos.

Definition provideDocumentSemanticTokens (visibleTextEditors : list TextEditor)
    (st : state) (doc : TextDocument) (tokens : SemanticTokens)
    : state * SemanticTokens :=
  let lastTokens' := <[doc := tokens]> (lastTokens st) in
  let inactiveRanges :=
    computeInactiveRanges (inactiveCodeTokenTypeIndex st)
                          (deref (heap st) (data tokens)) in
  let lastInactiveRanges' := <[doc := inactiveRanges]> (lastInactiveRanges st) in
  let decorations' :=
    decorate_visible visibleTextEditors doc inactiveRanges (decorations st) in
  replaceInactiveRanges
    (mkState (inactiveCodeTokenTypeIndex st)
             (inactiveCodeTokenTypeReplaceIndex st)
             (heap st) lastTokens' lastInactiveRanges' decorations')
    tokens.

(** ** [applyDelta] *)

Definition applyDelta (st : state) (prev : SemanticTokens)
    (delta : SemanticTokensEdits) : outcome (state * SemanticTokens) :=
  match applyDelta_data (deref (heap st) (data prev)) (edits delta) with
  | Ok destData =>
      let '(l, h) := alloc (heap st) destData in
      Ok (with_heap st h, mkTokens (edits_resultId delta) l)
  | Throw e => Throw e
  end.

(** ** [provideDocumentSemanticTokensEdits]

    [isSemanticTokens] tells the two payload shapes apart by the
    presence of [data]: [inl] is a full [SemanticTokens] payload, [inr]
    a delta. *)

Definition provideDocumentSemanticTokensEdits
    (visibleTextEditors : list TextEditor) (st : state) (doc : TextDocument)
    (previousResultId : string)
    (tokens : SemanticTokens + SemanticTokensEdits)
    : outcome (state * (SemanticTokens + SemanticTokensEdits)) :=
  match tokens with
  | inl full =>
      let '(st', out) :=
        provideDocumentSemanticTokens visibleTextEditors st doc full in
      Ok (st', inl out)
  | inr delta =>
      match lastTokens st !! doc with
      | None => Ok (st, inr delta)
      | Some previousTokens =>
          if decide (resultId previousTokens = Some previousResultId) then
            match applyDelta st previousTokens delta with
            | Ok (st1, patched) =>
                let '(st', out) :=
                  provideDocumentSemanticTokens visibleTextEditors st1 doc
                                                patched in
                Ok (st', inl out)
            | Throw e => Throw e
            end
          else Ok (st, inr delta)
      end
  end.

(** ** The specification's vocabulary

    The definitions below follow the wording of the specification; the
    theorems compare them with the code above. *)

Record TokenRecord : Type := mkRecord {
  deltaLine : Z;
  deltaStartColumn : Z;
  length_ : Z;
  typeCode : Z;
  modifierBits : Z
}.

Record AbsoluteRecord : Type := mkAbsolute {
  startLine : Z;
  startColumn : Z;
  abs_length : Z;
  abs_typeCode : Z;
  abs_modifierBits : Z
}.

(** The flat stream cut into 5-integer records. *)
Fixpoint records (buffer : list Z) : list TokenRecord :=
  match buffer with
  | a :: b :: c :: d :: e :: rest => mkRecord a b c d e :: records rest
  | _ => []
  end.

Definition flatten (rs : list TokenRecord) : list Z :=
  concat (map (fun r => [deltaLine r; deltaStartColumn r; length_ r;
                         typeCode r; modifierBits r]) rs).

(** Decoding state [(lastLine, lastStartColumn)]. *)
Fixpoint decode_from (lastLine lastStartColumn : Z) (rs : list TokenRecord)
    : list AbsoluteRecord :=
  match rs with
  | [] => []
  | r :: rs' =>
      let startLine := lastLine + deltaLine r in
      let startColumn :=
        if deltaLine r =? 0 then lastStartColumn + deltaStartColumn r
        else deltaStartColumn r in
      mkAbsolute startLine startColumn (length_ r) (typeCode r)
                 (modifierBits r)
      :: decode_from startLine startColumn rs'
  end.

Definition decode (buffer : list Z) : list AbsoluteRecord :=
  decode_from 0 0 (records buffer).

Definition range_of (a : AbsoluteRecord) : Range :=
  mkRange (mkPosition (JS.Num (startLine a)) (JS.Num (startColumn a)))
          (mkPosition (JS.Num (startLine a))
                      (JS.Num (startColumn a + abs_length a))).

Definition extract (decodedRecords : list AbsoluteRecord)
    (sentinelTypeIndex : Z) : list Range :=
  map range_of
      (filter (fun a => abs_typeCode a = sentinelTypeIndex) decodedRecords).

(** One splice: remove [deleteCount] integers at [start] and put the
    inserted data in their place. *)
Definition inserted (edit : SemanticTokensEdit) : list Z :=
  default [] (edit_data edit).

Definition splice (edit : SemanticTokensEdit) (buffer : list Z) : list Z :=
  take (Z.to_nat (start edit)) buffer ++ inserted edit ++
  drop (Z.to_nat (start edit + deleteCount edit)) buffer.

(** Edits processed in descending order of [start]: the last edit of the
    list is applied first. *)
Definition apply_spec (previousBuffer : list Z)
    (edits : list SemanticTokensEdit) : list Z :=
  foldr splice previousBuffer edits.

(** The contract on an edit list: offsets into the original buffer,
    listed left to right, non-overlapping and inside the buffer. *)
Fixpoint contract (pos : Z) (edits : list SemanticTokensEdit) (n : Z)
    : Prop :=
  match edits with
  | [] => pos <= n
  | e :: es =>
      pos <= start e /\ 0 <= deleteCount e /\
      contract (start e + deleteCount e) es n
  end.

(** Lexicographic order on the start of ranges. *)
Definition position_le (p q : Position) : Prop :=
  match line p, character p, line q, character q with
  | JS.Num l1, JS.Num c1, JS.Num l2, JS.Num c2 =>
      l1 < l2 \/ (l1 = l2 /\ c1 <= c2)
  | _, _, _, _ => False
  end.

Definition range_le (r1 r2 : Range) : Prop :=
  position_le (range_start r1) (range_start r2).

(** What the patch loop has written at the right end of the target once
    it has processed the edits [es] (the rightmost first), together with
    the value [srcLastStart] then has. *)
Fixpoint written (srcData : list Z) (es : list SemanticTokensEdit)
    : Z * list Z :=
  match es with
  | [] => (len srcData, [])
  | e :: es' =>
      let '(s', t') := written srcData es' in
      (start e,
       inserted e ++
       take (Z.to_nat (s' - (start e + deleteCount e)))
            (drop (Z.to_nat (start e + deleteCount e)) srcData) ++ t')
  end.

(** Inserted data is array content too. *)
Definition edit_u32 (e : SemanticTokensEdit) : Prop :=
  Forall u32 (inserted e).

(** [Σ (insertedData.length − deleteCount)] *)
Definition length_change (edits : list SemanticTokensEdit) : Z :=
  foldr (fun e acc => (len (inserted e) - deleteCount e) + acc) 0 edits.

(** The same order on decoded records. *)
Definition abs_le (a b : AbsoluteRecord) : Prop :=
  startLine a < startLine b \/
  (startLine a = startLine b /\ startColumn a <= startColumn b).

(** The integer found at index [i] of a remapped stream, given the
    integer [x] found there before: only a [typeCode] slot (index 3 of
    a record) that holds the sentinel changes. *)
Definition remapped (sentinel replaceIndex : JS.value) (i : nat) (x : Z) : Z :=
  if (i mod 5 =? 3)%nat && JS.loose_eq (JS.Num x) sentinel
  then JS.ToUint32 replaceIndex
  else x.

(** ** Example inputs

    The two-record stream and the single edit of the specification's
    patch example, and the one-record stream of its end-to-end
    scenario (legend ["comment"; "keyword"]). *)

Definition two_records : list Z := [0; 0; 3; 1; 0; 2; 0; 4; 2; 0].

Definition replace_second : SemanticTokensEdit :=
  mkEdit 5 5 (Some [1; 0; 4; 3; 0]).

Definition one_inactive : list Z := [2; 4; 6; 0; 0].

Definition example_capabilities : ServerCapabilities :=
  mkCapabilities (Some (mkLegend ["comment"; "keyword"])).

(** A session negotiated with that legend, holding one array at
    address 1. *)
Definition session (buffer : list Z) : state :=
  initialize (initial_state {[1%positive := buffer]}) example_capabilities.

Definition first_tokens : SemanticTokens := mkTokens (Some "r1") 1%positive.

Definition some_document : positive := 7%positive.

(** The session after a first full transmission of [buffer] under the
    identifier ["r1"]. *)
Definition after_first (buffer : list Z) : state :=
  (provideDocumentSemanticTokens [] (session buffer) some_document
     first_tokens).1.

(** ** Invariants of the heap and of the host's editor list *)

(** Every array of the heap holds unsigned 32-bit integers. *)
Definition heap_u32 (h : gmap loc (list Z)) : Prop :=
  forall l a, h !! l = Some a -> Forall u32 a.

(** An editor shows one document: two entries of a list of editors that
    name the same editor name the same document. *)
Definition one_document_each (editors : list TextEditor) : Prop :=
  forall e1 e2,
    e1 ∈ editors -> e2 ∈ editors ->
    editor_id e1 = editor_id e2 -> document e1 = document e2.

(** The body of the loop of [applyInactiveRegions]. *)
Definition reapply (ranges : gmap positive (list Range))
    (decos : gmap positive (list Range)) (editor : TextEditor)
    : gmap positive (list Range) :=
  match ranges !! document editor with
  | Some inactiveRanges => <[editor_id editor := inactiveRanges]> decos
  | None => decos
  end.

(** A well-formed range: numeric, non-negative, on one line, its end
    not before its start. *)
Definition range_wf (r : Range) : Prop :=
  exists l c e,
    r = mkRange (mkPosition (JS.Num l) (JS.Num c))
                (mkPosition (JS.Num l) (JS.Num e))
    /\ 0 <= l /\ 0 <= c <= e.

(** A stream that lacks only the modifier bits of its last record,
    completed with a zero; any other stream as it is. *)
Definition with_missing_modifier (buffer : list Z) : list Z :=
  if len buffer mod 5 =? 4 then buffer ++ [0] else buffer.

(** ** The range in which the model's sums are the code's

    Integers up to 2^53 = 9007199254740992 are doubles, and a sum of
    two of them that stays in the range is computed exactly. *)

(** The sums formed for one decoded record: its line, its column and
    its end column. *)
Definition exact_in_double (a : AbsoluteRecord) : Prop :=
  0 <= startLine a <= 9007199254740992
  /\ 0 <= startColumn a
  /\ 0 <= abs_length a
  /\ startColumn a + abs_length a <= 9007199254740992.

(** Edit lists of the size the protocol allows: counts that are
    unsigned integers, at most 2^20 edits. *)
Definition bounded_edits (es : list SemanticTokensEdit) : Prop :=
  len_of es <= 1048576
  /\ Forall (fun e => 0 <= deleteCount e <= 4294967296
                      /\ len (inserted e) <= 4294967296) es.

(** ** More example inputs *)

(** Four records: two inactive tokens on line 0, an ordinary token on
    line 1, an inactive token on line 3. *)
Definition mixed_records : list Z :=
  [0; 2; 3; 0; 0;  0; 5; 1; 0; 0;  1; 1; 2; 1; 0;  2; 0; 4; 0; 0].

(** One record, then a record without its modifier bits. *)
Definition nine_integers : list Z := [2; 4; 6; 0; 0; 1; 2; 3; 0].

(** * Properties *)

(** ** Array primitives *)

Ltac len_lia :=
  unfold len_of in *; rewrite ?length_app in *; simpl in *; lia.

Lemma len_nonneg {A : Type} (a : list A) : 0 <= len_of a.
Proof. unfold len_of. lia. Qed.

Lemma load_in_range (a : list Z) (i : nat) (x : Z) :
  a !! i = Some x -> load a (Z.of_nat i) = JS.Num x.
Proof.
  intros H. unfold load.
  destruct (Z.leb_spec 0 (Z.of_nat i)); [|lia].
  by rewrite Nat2Z.id, H.
Qed.

Lemma load_out_of_range (a : list Z) (i : Z) :
  len a <= i -> load a i = JS.Undefined.
Proof.
  intros H. unfold load, len_of in *.
  destruct (0 <=? i); [|done].
  rewrite (lookup_ge_None_2 a (Z.to_nat i)); [done | lia].
Qed.

Lemma store_length (a : list Z) (i : Z) (v : JS.value) :
  length (store a i v) = length a.
Proof. unfold store. destruct (0 <=? i); [apply length_insert | done]. Qed.

Lemma store_out_of_range (a : list Z) (i : Z) (v : JS.value) :
  len a <= i -> store a i v = a.
Proof.
  intros H. unfold store, len_of in *.
  destruct (0 <=? i); [|done]. apply list_insert_ge. lia.
Qed.

Lemma ToUint32_u32 (x : Z) : u32 x -> JS.ToUint32 (JS.Num x) = x.
Proof. unfold u32. intros H. simpl. apply Z.mod_small. lia. Qed.

Lemma seq_snoc_fold {A : Type} (f : A -> nat -> A) (n : nat) (a : A) :
  fold_left f (seq 0 (S n)) a = f (fold_left f (seq 0 n) a) n.
Proof. by rewrite seq_S, fold_left_app. Qed.

Lemma copy_length (src dest : list Z) (so d n : Z) :
  length (copy src so dest d n) = length dest.
Proof.
  unfold copy. generalize (Z.to_nat n) as k.
  induction k as [|k IH]; [done|].
  by rewrite seq_snoc_fold, store_length.
Qed.

(** A copy that stays inside both arrays overwrites exactly the target
    window with the source window. *)
Lemma copy_window (src dest : list Z) (so d n : nat) :
  Forall u32 src ->
  (so + n <= length src)%nat ->
  (d + n <= length dest)%nat ->
  copy src (Z.of_nat so) dest (Z.of_nat d) (Z.of_nat n)
  = take d dest ++ take n (drop so src) ++ drop (d + n) dest.
Proof.
  intros Hsrc. unfold copy. rewrite Nat2Z.id.
  induction n as [|n IH]; intros Hs Hd.
  - simpl. by rewrite Nat.add_0_r, take_drop.
  - rewrite seq_snoc_fold, IH by lia.
    destruct (lookup_lt_is_Some_2 src (so + n)%nat) as [x Hx]; [lia|].
    replace (Z.of_nat so + Z.of_nat n) with (Z.of_nat (so + n)) by lia.
    rewrite (load_in_range _ _ _ Hx).
    unfold store.
    destruct (Z.leb_spec 0 (Z.of_nat d + Z.of_nat n)); [|lia].
    replace (Z.to_nat (Z.of_nat d + Z.of_nat n)) with (d + n)%nat by lia.
    rewrite ToUint32_u32 by (eapply Forall_lookup_1; eauto).
    rewrite (take_S_r (drop so src) n x) by (by rewrite lookup_drop).
    destruct (lookup_lt_is_Some_2 dest (d + n)%nat) as [y Hy]; [lia|].
    rewrite (drop_S dest y (d + n)) by done.
    rewrite insert_app_r_alt by (rewrite length_take; lia).
    rewrite length_take, Nat.min_l by lia.
    rewrite insert_app_r_alt by (rewrite length_take, length_drop; lia).
    rewrite length_take, length_drop, Nat.min_l by lia.
    replace (d + n - d - n)%nat with 0%nat by lia. simpl.
    rewrite <- !app_assoc. simpl.
    by replace (d + S n)%nat with (S (d + n)) by lia.
Qed.

Lemma copy_nothing (src dest : list Z) (so d : Z) : copy src so dest d 0 = dest.
Proof. reflexivity. Qed.

(** Copying a window just before an already written tail [t]. *)
Lemma copy_before (src dest t : list Z) (so n k : Z) :
  Forall u32 src ->
  0 <= so -> 0 <= n -> so + n <= len src ->
  n <= k -> k + len t = len dest ->
  copy src so (take (Z.to_nat k) dest ++ t) (k - n) n
  = take (Z.to_nat (k - n)) dest ++
    take (Z.to_nat n) (drop (Z.to_nat so) src) ++ t.
Proof.
  unfold len_of. intros Hsrc Hso Hn Hin Hk Hlen.
  rewrite <- (Z2Nat.id so) at 1 by lia.
  rewrite <- (Z2Nat.id (k - n)) at 1 by lia.
  rewrite <- (Z2Nat.id n) at 2 by lia.
  rewrite copy_window; [|done|lia|].
  2:{ rewrite length_app, length_take. lia. }
  rewrite take_app_le by (rewrite length_take; lia).
  rewrite take_take, Nat.min_l by lia.
  replace (Z.to_nat (k - n) + Z.to_nat n)%nat with (Z.to_nat k) by lia.
  rewrite drop_app_length' by (rewrite length_take; lia).
  done.
Qed.

(** ** The patch loop *)

Lemma fold_left_add_shift {A : Type} (g : A -> Z) (l : list A) (a : Z) :
  fold_left (fun acc x => acc + g x) l a
  = a + fold_left (fun acc x => acc + g x) l 0.
Proof.
  revert a. induction l as [|x l IH]; intros a; simpl; [lia|].
  rewrite (IH (a + g x)), (IH (0 + g x)). lia.
Qed.

Lemma deltaLength_of_cons (e : SemanticTokensEdit)
    (es : list SemanticTokensEdit) :
  deltaLength_of (e :: es)
  = len (inserted e) - deleteCount e + deltaLength_of es.
Proof.
  unfold deltaLength_of. simpl. rewrite fold_left_add_shift.
  unfold inserted. destruct (edit_data e); simpl; unfold len_of; simpl; lia.
Qed.

Lemma written_bounds (srcData : list Z) (es : list SemanticTokensEdit)
    (pos : Z) :
  0 <= pos ->
  contract pos es (len srcData) ->
  pos <= (written srcData es).1 <= len srcData /\
  len (written srcData es).2
  = len srcData - (written srcData es).1 + deltaLength_of es.
Proof.
  revert pos. induction es as [|e es IH]; intros pos Hpos Hc; simpl in *.
  - unfold deltaLength_of, len_of in *. simpl. lia.
  - destruct Hc as (Hs & Hd & Hc).
    destruct (IH (start e + deleteCount e)) as [Hb Hl]; [lia|done|].
    rewrite deltaLength_of_cons.
    destruct (written srcData es) as [s' t']. simpl in *.
    split; [lia|].
    unfold len_of in *.
    rewrite !length_app, length_take, length_drop. lia.
Qed.

Lemma applyDelta_loop (srcData dest : list Z)
    (es : list SemanticTokensEdit) (pos : Z) :
  Forall u32 srcData ->
  Forall edit_u32 es ->
  0 <= pos ->
  contract pos es (len srcData) ->
  len (written srcData es).2 <= len dest ->
  foldr (fun e acc => applyDelta_step srcData acc e)
        (len srcData, len dest, dest) es
  = ((written srcData es).1,
     len dest - len (written srcData es).2,
     take (Z.to_nat (len dest - len (written srcData es).2)) dest
     ++ (written srcData es).2).
Proof.
  intros Hsrc Hes. revert pos.
  induction Hes as [|e es He Hes IH]; intros pos Hpos Hc Hfit.
  - simpl. rewrite Z.sub_0_r, app_nil_r. unfold len_of.
    by rewrite Nat2Z.id, firstn_all.
  - simpl in Hc. destruct Hc as (Hs & Hd & Hc).
    destruct (written_bounds srcData es (start e + deleteCount e))
      as [Hb Hl]; [lia|done|].
    simpl foldr. simpl written in *.
    destruct (written srcData es) as [s' t'] eqn:Hw. simpl in *.
    assert (Hgap :
      len (take (Z.to_nat (s' - (start e + deleteCount e)))
                (drop (Z.to_nat (start e + deleteCount e)) srcData))
      = s' - (start e + deleteCount e)).
    { unfold len_of in *. rewrite length_take, length_drop. lia. }
    assert (Hfit' : len (inserted e) + (s' - (start e + deleteCount e))
                    + len t' <= len dest).
    { unfold len_of in *. rewrite !length_app in Hfit.
      unfold len_of in Hgap. lia. }
    rewrite (IH (start e + deleteCount e));
      [| lia | done | unfold len_of in *; lia].
    unfold applyDelta_step.
    set (cc := s' - (start e + deleteCount e)) in *.
    set (k := len dest - len t') in *.
    set (D := take (Z.to_nat k) dest ++ t').
    assert (Hfirst :
      (if cc =? 0 then (k, D)
       else (k - cc, copy srcData (s' - cc) D (k - cc) cc))
      = (k - cc,
         take (Z.to_nat (k - cc)) dest ++
         take (Z.to_nat cc) (drop (Z.to_nat (start e + deleteCount e)) srcData)
         ++ t')).
    { assert (Hcopy : copy srcData (s' - cc) D (k - cc) cc
        = take (Z.to_nat (k - cc)) dest ++
          take (Z.to_nat cc) (drop (Z.to_nat (start e + deleteCount e)) srcData)
          ++ t').
      { unfold D. rewrite copy_before; try done;
          try (subst cc k; unfold len_of in *; lia).
        by replace (s' - cc) with (start e + deleteCount e) by (subst cc; lia). }
      destruct (Z.eqb_spec cc 0) as [E|E]; [|by rewrite Hcopy].
      rewrite <- Hcopy, E, copy_nothing. f_equal. lia. }
    rewrite Hfirst. clear Hfirst.
    set (gap := take (Z.to_nat cc) _) in *.
    unfold edit_u32, inserted in *.
    destruct (edit_data e) as [d0|]; simpl in *.
    + f_equal; [f_equal|].
      * len_lia.
      * rewrite copy_before; [|done|lia|len_lia..].
        replace (k - cc - len d0)
          with (len dest - len (d0 ++ gap ++ t')) by len_lia.
        unfold len_of. by rewrite Nat2Z.id, drop_0, firstn_all.
    + f_equal; [f_equal|].
      * len_lia.
      * replace (len dest - len (gap ++ t')) with (k - cc) by len_lia. done.
Qed.

Lemma deltaLength_of_length_change (es : list SemanticTokensEdit) :
  deltaLength_of es = length_change es.
Proof.
  induction es as [|e es IH]; [done|].
  rewrite deltaLength_of_cons. simpl. lia.
Qed.

(** The splices of the specification, in terms of what the loop writes. *)
Lemma apply_spec_written (srcData : list Z) (es : list SemanticTokensEdit)
    (pos : Z) :
  0 <= pos ->
  contract pos es (len srcData) ->
  apply_spec srcData es
  = take (Z.to_nat (written srcData es).1) srcData ++ (written srcData es).2.
Proof.
  revert pos. induction es as [|e es IH]; intros pos Hpos Hc.
  - simpl. unfold len_of. by rewrite Nat2Z.id, firstn_all, app_nil_r.
  - simpl in Hc. destruct Hc as (Hs & Hd & Hc).
    destruct (written_bounds srcData es (start e + deleteCount e))
      as [Hb _]; [lia|done|].
    unfold apply_spec in *. simpl foldr.
    rewrite (IH (start e + deleteCount e)) by (done || lia).
    simpl written. destruct (written srcData es) as [s' t']. simpl in *.
    unfold splice.
    rewrite take_app_le by (rewrite length_take; len_lia).
    rewrite take_take, Nat.min_l by lia.
    rewrite drop_app_le by (rewrite length_take; len_lia).
    rewrite take_drop_commute.
    replace (Z.to_nat (start e + deleteCount e)
             + Z.to_nat (s' - (start e + deleteCount e)))%nat
      with (Z.to_nat s') by lia.
    done.
Qed.

Lemma applyDelta_data_contract (srcData : list Z)
    (es : list SemanticTokensEdit) :
  Forall u32 srcData ->
  Forall edit_u32 es ->
  contract 0 es (len srcData) ->
  applyDelta_data srcData es = Ok (apply_spec srcData es).
Proof.
  intros Hsrc Hes Hc.
  destruct (written_bounds srcData es 0) as [Hb Hl]; [lia|done|].
  rewrite (apply_spec_written srcData es 0) by (done || lia).
  unfold applyDelta_data.
  set (n := len srcData + deltaLength_of es) in *.
  assert (Hn : 0 <= n) by (pose proof (len_nonneg (written srcData es).2); lia).
  destruct (Z.ltb_spec n 0); [lia|].
  assert (Hz : len (zeros n) = n).
  { unfold zeros, len_of. rewrite length_replicate. lia. }
  rewrite <- fold_left_rev_right, rev_involutive.
  rewrite (applyDelta_loop srcData (zeros n) es 0); [|done|done|lia|done|lia].
  destruct (written srcData es) as [s t]. simpl in *.
  replace (len (zeros n) - len t) with s by lia.
  f_equal. destruct (Z.ltb_spec 0 s) as [Hpos|Hzero].
  - replace 0 with (s - s) at 2 by lia.
    rewrite copy_before; [|done|lia..].
    by rewrite Z.sub_diag, drop_0.
  - by replace s with 0 by lia.
Qed.

(** The patched array always has the announced length. *)
Lemma applyDelta_data_length (srcData : list Z)
    (es : list SemanticTokensEdit) (out : list Z) :
  applyDelta_data srcData es = Ok out ->
  len out = len srcData + length_change es.
Proof.
  unfold applyDelta_data. rewrite deltaLength_of_length_change.
  set (n := len srcData + length_change es).
  destruct (Z.ltb_spec n 0) as [|Hn]; [done|].
  assert (Hinv : forall l acc,
    len acc.2 = n ->
    len (fold_left (applyDelta_step srcData) l acc).2 = n).
  { induction l as [|e l IH]; intros [[s d] D] HD; [done|].
    simpl fold_left. apply IH. unfold applyDelta_step.
    simpl in HD.
    destruct (_ =? 0); destruct (edit_data e); simpl;
      unfold len_of in *; rewrite ?copy_length; done. }
  specialize (Hinv (rev es) (len srcData, len (zeros n), zeros n)).
  destruct (fold_left _ _ _) as [[s d] D]. simpl in Hinv.
  intros [= <-].
  assert (HD : len D = n).
  { apply Hinv. unfold zeros, len_of. rewrite length_replicate. lia. }
  destruct (0 <? s); [|done].
  unfold len_of in *. by rewrite copy_length.
Qed.

(** ** Streams, five integers at a time *)

Lemma list_ind5 (P : list Z -> Prop) :
  (forall l, (length l < 5)%nat -> P l) ->
  (forall a b c d e rest, P rest -> P (a :: b :: c :: d :: e :: rest)) ->
  forall l, P l.
Proof.
  intros Hshort Hstep l.
  remember (length l) as n eqn:Hn.
  revert l Hn. induction (lt_wf n) as [n _ IH]. intros l ->.
  destruct l as [|a [|b [|c [|d [|e rest]]]]];
    try (apply Hshort; simpl; lia).
  apply Hstep. apply (IH (length rest)); [simpl; lia | done].
Qed.

Lemma load_skip5 (a b c d e : Z) (rest : list Z) (i : Z) :
  0 <= i ->
  load (a :: b :: c :: d :: e :: rest) (5 + i) = load rest i.
Proof.
  intros Hi. unfold load.
  destruct (Z.leb_spec 0 (5 + i)); [|lia].
  destruct (Z.leb_spec 0 i); [|lia].
  by replace (Z.to_nat (5 + i)) with (5 + Z.to_nat i)%nat by lia.
Qed.

Lemma tokenIterations_skip5 (a b c d e : Z) (rest : list Z) :
  tokenIterations (len (a :: b :: c :: d :: e :: rest))
  = S (tokenIterations (len rest)).
Proof.
  unfold tokenIterations, len_of. simpl length.
  replace (Z.of_nat (S (S (S (S (S (length rest)))))) + 4)
    with ((Z.of_nat (length rest) + 4) + 1 * 5) by lia.
  rewrite Z.div_add by lia.
  pose proof (Z.div_pos (Z.of_nat (length rest) + 4) 5). lia.
Qed.

Lemma tokenIterations_whole (data : list Z) :
  len data mod 5 = 0 -> Z.of_nat (tokenIterations (len data)) = len data / 5.
Proof.
  intros H. unfold tokenIterations.
  pose proof (len_nonneg data).
  rewrite Z2Nat.id by (apply Z.div_pos; lia).
  rewrite (Z.div_mod (len data) 5) at 1 by lia.
  rewrite H, Z.add_0_r, Z.mul_comm, Z.div_add_l by lia.
  change (4 / 5) with 0. lia.
Qed.

Lemma fold_left_seq_shift {A : Type} (f : A -> nat -> A) (a n : nat)
    (acc : A) :
  fold_left f (seq (S a) n) acc
  = fold_left (fun acc i => f acc (S i)) (seq a n) acc.
Proof.
  revert a acc. induction n as [|n IH]; intros a acc; [done|].
  simpl. apply IH.
Qed.

Lemma fold_left_pointwise {A B : Type} (f g : A -> B -> A) (l : list B)
    (acc : A) :
  (forall a b, f a b = g a b) -> fold_left f l acc = fold_left g l acc.
Proof.
  intros H. revert acc. induction l as [|x l IH]; intros acc; [done|].
  simpl. rewrite H. apply IH.
Qed.

Lemma mod5_skip5 (a b c d e : Z) (rest : list Z) :
  len (a :: b :: c :: d :: e :: rest) mod 5 = len rest mod 5.
Proof.
  unfold len_of. simpl length.
  replace (Z.of_nat (S (S (S (S (S (length rest)))))))
    with (Z.of_nat (length rest) + 1 * 5) by lia.
  apply Z.mod_add. lia.
Qed.

(** ** Extraction *)

Lemma computeInactiveRanges_step_skip5 (sentinel : JS.value)
    (a b c d e : Z) (rest : list Z)
    (acc : JS.value * JS.value * list Range) (i : nat) :
  computeInactiveRanges_step sentinel (a :: b :: c :: d :: e :: rest) acc (S i)
  = computeInactiveRanges_step sentinel rest acc i.
Proof.
  assert (Hk : forall k, 0 <= k ->
    load (a :: b :: c :: d :: e :: rest) (5 * Z.of_nat (S i) + k)
    = load rest (5 * Z.of_nat i + k)).
  { intros k Hk.
    replace (5 * Z.of_nat (S i) + k) with (5 + (5 * Z.of_nat i + k)) by lia.
    apply load_skip5. lia. }
  assert (H0 : load (a :: b :: c :: d :: e :: rest) (5 * Z.of_nat (S i))
               = load rest (5 * Z.of_nat i)).
  { specialize (Hk 0). rewrite !Z.add_0_r in Hk. apply Hk. lia. }
  unfold computeInactiveRanges_step. destruct acc as [[l c0] rs].
  by rewrite !Hk, H0 by lia.
Qed.

Lemma computeInactiveRanges_loop (s : Z) (data : list Z) :
  len data mod 5 = 0 ->
  forall (l c : Z) (acc : list Range),
  exists l' c',
    fold_left (computeInactiveRanges_step (JS.Num s) data)
              (seq 0 (tokenIterations (len data)))
              (JS.Num l, JS.Num c, acc)
    = (JS.Num l', JS.Num c',
       acc ++ extract (decode_from l c (records data)) s).
Proof.
  induction data as [data Hshort | a b c d e rest IH] using list_ind5.
  - intros Hmod l c acc.
    assert (data = []) as ->.
    { destruct data as [|x data]; [done|]. exfalso.
      unfold len_of in Hmod. simpl in *.
      rewrite Z.mod_small in Hmod; lia. }
    exists l, c. simpl. by rewrite app_nil_r.
  - rewrite mod5_skip5. intros Hmod l c0 acc.
    rewrite tokenIterations_skip5. cbn [seq fold_left].
    rewrite fold_left_seq_shift.
    rewrite (fold_left_pointwise _
               (computeInactiveRanges_step (JS.Num s) rest))
      by (intros; apply computeInactiveRanges_step_skip5).
    unfold computeInactiveRanges_step at 2.
    change (load (a :: b :: c :: d :: e :: rest) (5 * Z.of_nat 0))
      with (JS.Num a).
    change (load (a :: b :: c :: d :: e :: rest) (5 * Z.of_nat 0 + 1))
      with (JS.Num b).
    change (load (a :: b :: c :: d :: e :: rest) (5 * Z.of_nat 0 + 2))
      with (JS.Num c).
    change (load (a :: b :: c :: d :: e :: rest) (5 * Z.of_nat 0 + 3))
      with (JS.Num d).
    cbn [JS.add JS.strict_eq JS.loose_eq records decode_from
         deltaLine deltaStartColumn length_ typeCode modifierBits].
    unfold extract. rewrite filter_cons. cbn [abs_typeCode].
    destruct (Z.eqb_spec a 0) as [Ha|Ha];
      (destruct (Z.eqb_spec d s) as [Hd|Hd];
       [rewrite decide_True by done | rewrite decide_False by done]);
      match goal with
      | |- context [fold_left _ _ (JS.Num ?l1, JS.Num ?c1, ?acc1)] =>
          destruct (IH Hmod l1 c1 acc1) as (l' & c' & ->)
      end;
      exists l', c'; unfold extract; cbn [map];
      by rewrite <- ?app_assoc.
Qed.

Lemma computeInactiveRanges_is_extract (s : Z) (data : list Z) :
  len data mod 5 = 0 ->
  computeInactiveRanges (JS.Num s) data = extract (decode data) s.
Proof.
  intros Hmod. unfold computeInactiveRanges, decode.
  by destruct (computeInactiveRanges_loop s data Hmod 0 0 [])
    as (l' & c' & ->).
Qed.

Lemma records_nonneg (data : list Z) :
  Forall u32 data ->
  Forall (fun r => 0 <= deltaLine r /\ 0 <= deltaStartColumn r)
         (records data).
Proof.
  induction data as [data Hshort | a b c d e rest IH] using list_ind5.
  - intros _.
    by destruct data as [|? [|? [|? [|? [|? ?]]]]];
      [..| simpl in Hshort; lia].
  - intros H. do 5 (apply Forall_cons in H as [? H]).
    unfold u32 in *. simpl. constructor; [simpl; lia | by apply IH].
Qed.

Lemma decode_from_sorted (rs : list TokenRecord) (l c : Z) :
  Forall (fun r => 0 <= deltaLine r /\ 0 <= deltaStartColumn r) rs ->
  Forall (fun a => l < startLine a \/ (l = startLine a /\ c <= startColumn a))
         (decode_from l c rs) /\
  StronglySorted abs_le (decode_from l c rs).
Proof.
  intros Hrs. revert l c.
  induction Hrs as [|r rs [Hl Hc] _ IH]; intros l c; simpl.
  - split; constructor.
  - set (l1 := l + deltaLine r).
    set (c1 := if deltaLine r =? 0 then c + deltaStartColumn r
               else deltaStartColumn r).
    destruct (IH l1 c1) as [Hall Hsorted].
    assert (Hhead : l < l1 \/ (l = l1 /\ c <= c1)).
    { subst l1 c1. destruct (Z.eqb_spec (deltaLine r) 0); lia. }
    split.
    + constructor; [done|].
      eapply Forall_impl; [exact Hall|]. simpl. lia.
    + constructor; [done|].
      eapply Forall_impl; [exact Hall|]. unfold abs_le. simpl. lia.
Qed.

Lemma extract_sorted (abs : list AbsoluteRecord) (s : Z) :
  StronglySorted abs_le abs -> StronglySorted range_le (extract abs s).
Proof.
  unfold extract. induction 1 as [|a abs Hs IH Hall]; [constructor|].
  rewrite filter_cons. destruct (decide _); [|done].
  simpl. constructor; [done|].
  clear -Hall. induction Hall as [|b abs Hb _ IH]; [constructor|].
  rewrite filter_cons. destruct (decide _); [|done].
  simpl. by constructor.
Qed.

Lemma extract_no_match (abs : list AbsoluteRecord) (s : Z) :
  Forall (fun a => abs_typeCode a <> s) abs -> extract abs s = [].
Proof.
  unfold extract. induction 1 as [|a abs Ha _ IH]; [done|].
  by rewrite filter_cons, decide_False.
Qed.

(** ** Remapping *)

Lemma typed_set_fresh (src : list Z) : typed_set (zeros (len src)) src = src.
Proof.
  unfold typed_set, zeros, len_of.
  rewrite drop_ge by (rewrite length_replicate; lia).
  apply app_nil_r.
Qed.

Lemma store_skip5 (a b c d e : Z) (rest : list Z) (i : Z) (v : JS.value) :
  0 <= i ->
  store (a :: b :: c :: d :: e :: rest) (5 + i) v
  = a :: b :: c :: d :: e :: store rest i v.
Proof.
  intros Hi. unfold store.
  destruct (Z.leb_spec 0 (5 + i)); [|lia].
  destruct (Z.leb_spec 0 i); [|lia].
  by replace (Z.to_nat (5 + i)) with (5 + Z.to_nat i)%nat by lia.
Qed.

Lemma replaceInactiveRanges_step_skip5 (s r : JS.value) (a b c d e : Z)
    (rest : list Z) (i : nat) :
  replaceInactiveRanges_step s r (a :: b :: c :: d :: e :: rest) (S i)
  = a :: b :: c :: d :: e :: replaceInactiveRanges_step s r rest i.
Proof.
  unfold replaceInactiveRanges_step.
  replace (5 * Z.of_nat (S i) + 3) with (5 + (5 * Z.of_nat i + 3)) by lia.
  rewrite load_skip5, store_skip5 by lia.
  by destruct (JS.loose_eq _ _).
Qed.

Lemma replaceInactiveRanges_loop_skip5 (s r : JS.value) (a b c d e : Z)
    (rest : list Z) (l : list nat) :
  fold_left (fun acc i => replaceInactiveRanges_step s r acc (S i)) l
            (a :: b :: c :: d :: e :: rest)
  = a :: b :: c :: d :: e ::
    fold_left (replaceInactiveRanges_step s r) l rest.
Proof.
  revert rest. induction l as [|i l IH]; intros rest; [done|].
  simpl. by rewrite replaceInactiveRanges_step_skip5, IH.
Qed.

Lemma replaceInactiveRanges_data_skip5 (s r : JS.value) (a b c d e : Z)
    (rest : list Z) :
  replaceInactiveRanges_data s r (a :: b :: c :: d :: e :: rest)
  = a :: b :: c :: remapped s r 3 d :: e ::
    replaceInactiveRanges_data s r rest.
Proof.
  unfold replaceInactiveRanges_data. rewrite !typed_set_fresh.
  rewrite tokenIterations_skip5. cbn [seq fold_left].
  rewrite fold_left_seq_shift.
  unfold replaceInactiveRanges_step at 2.
  change (load (a :: b :: c :: d :: e :: rest) (5 * Z.of_nat 0 + 3))
    with (JS.Num d).
  change (store (a :: b :: c :: d :: e :: rest) (5 * Z.of_nat 0 + 3) r)
    with (a :: b :: c :: JS.ToUint32 r :: e :: rest).
  unfold remapped. change ((3 mod 5 =? 3)%nat) with true. cbn [andb].
  destruct (JS.loose_eq (JS.Num d) s);
    by rewrite replaceInactiveRanges_loop_skip5.
Qed.

Lemma replaceInactiveRanges_data_short (s r : JS.value) (src : list Z) :
  (length src < 5)%nat ->
  replaceInactiveRanges_data s r src
  = match src with
    | [a; b; c; d] => [a; b; c; remapped s r 3 d]
    | _ => src
    end.
Proof.
  intros Hshort. unfold replaceInactiveRanges_data.
  rewrite typed_set_fresh.
  destruct src as [|a [|b [|c [|d [|e ?]]]]];
    [done| | | | | simpl in Hshort; lia];
    match goal with
    | |- context [tokenIterations ?n] =>
        let k := eval vm_compute in (tokenIterations n) in
        change (tokenIterations n) with k
    end;
    cbn [seq fold_left]; unfold replaceInactiveRanges_step;
    try (by destruct s).
  change (load [a; b; c; d] (5 * Z.of_nat 0 + 3)) with (JS.Num d).
  change (store [a; b; c; d] (5 * Z.of_nat 0 + 3) r)
    with [a; b; c; JS.ToUint32 r].
  unfold remapped. change ((3 mod 5 =? 3)%nat) with true. cbn [andb].
  by destruct (JS.loose_eq _ _).
Qed.

Lemma replaceInactiveRanges_data_lookup (s r : JS.value) (src : list Z)
    (i : nat) :
  replaceInactiveRanges_data s r src !! i = remapped s r i <$> src !! i.
Proof.
  revert i.
  induction src as [src Hshort | a b c d e rest IH] using list_ind5;
    intros i.
  - rewrite replaceInactiveRanges_data_short by done.
    destruct src as [|a [|b [|c [|d [|e ?]]]]];
      [| | | | | simpl in Hshort; lia];
      do 4 (try (destruct i as [|i]; [reflexivity|])); reflexivity.
  - rewrite replaceInactiveRanges_data_skip5.
    do 5 (destruct i as [|i]; [reflexivity|]).
    simpl. rewrite IH. unfold remapped.
    replace (S (S (S (S (S i)))) mod 5)%nat with (i mod 5)%nat; [done|].
    change (S (S (S (S (S i))))) with (5 + i)%nat.
    rewrite <- (Nat.Div0.add_mod_idemp_l 5 i 5). done.
Qed.

Lemma replaceInactiveRanges_data_length (s r : JS.value) (src : list Z) :
  length (replaceInactiveRanges_data s r src) = length src.
Proof.
  induction src as [src Hshort | a b c d e rest IH] using list_ind5.
  - rewrite replaceInactiveRanges_data_short by done.
    by destruct src as [|a [|b [|c [|d [|e ?]]]]].
  - rewrite replaceInactiveRanges_data_skip5. simpl. by rewrite IH.
Qed.

(** ** Extraction from a stream of any length *)

Lemma with_missing_modifier_skip5 (a b c d e : Z) (rest : list Z) :
  with_missing_modifier (a :: b :: c :: d :: e :: rest)
  = a :: b :: c :: d :: e :: with_missing_modifier rest.
Proof.
  unfold with_missing_modifier. rewrite mod5_skip5.
  by destruct (_ =? 4).
Qed.

Lemma computeInactiveRanges_loop_any (s : Z) (data : list Z) :
  forall (l c : Z) (acc : list Range),
    (fold_left (computeInactiveRanges_step (JS.Num s) data)
               (seq 0 (tokenIterations (len data)))
               (JS.Num l, JS.Num c, acc)).2
    = acc ++ extract (decode_from l c (records (with_missing_modifier data)))
                     s.
Proof.
  induction data as [data Hshort | a b c d e rest IH] using list_ind5.
  - intros l c acc.
    destruct data as [|a0 [|b0 [|c0 [|d0 [|e0 ?]]]]];
      [ | | | | | simpl in Hshort; lia];
      match goal with
      | |- context [tokenIterations ?n] =>
          let k := eval vm_compute in (tokenIterations n) in
          change (tokenIterations n) with k
      end;
      match goal with
      | |- context [with_missing_modifier ?x] =>
          let y := eval cbv in (with_missing_modifier x) in
          change (with_missing_modifier x) with y
      end;
      cbn [seq fold_left records decode_from];
      try (by rewrite app_nil_r).
    unfold computeInactiveRanges_step.
    change (load [a0; b0; c0; d0] (5 * Z.of_nat 0)) with (JS.Num a0).
    change (load [a0; b0; c0; d0] (5 * Z.of_nat 0 + 1)) with (JS.Num b0).
    change (load [a0; b0; c0; d0] (5 * Z.of_nat 0 + 2)) with (JS.Num c0).
    change (load [a0; b0; c0; d0] (5 * Z.of_nat 0 + 3)) with (JS.Num d0).
    cbn [JS.add JS.strict_eq JS.loose_eq snd
         deltaLine deltaStartColumn length_ typeCode modifierBits].
    unfold extract. rewrite filter_cons. cbn [abs_typeCode].
    destruct (Z.eqb_spec a0 0);
      (destruct (Z.eqb_spec d0 s);
       [rewrite decide_True by done | rewrite decide_False by done]);
      by rewrite ?app_nil_r.
  - intros l c0 acc.
    rewrite tokenIterations_skip5, with_missing_modifier_skip5.
    cbn [seq fold_left].
    rewrite fold_left_seq_shift.
    rewrite (fold_left_pointwise _
               (computeInactiveRanges_step (JS.Num s) rest))
      by (intros; apply computeInactiveRanges_step_skip5).
    unfold computeInactiveRanges_step at 2.
    change (load (a :: b :: c :: d :: e :: rest) (5 * Z.of_nat 0))
      with (JS.Num a).
    change (load (a :: b :: c :: d :: e :: rest) (5 * Z.of_nat 0 + 1))
      with (JS.Num b).
    change (load (a :: b :: c :: d :: e :: rest) (5 * Z.of_nat 0 + 2))
      with (JS.Num c).
    change (load (a :: b :: c :: d :: e :: rest) (5 * Z.of_nat 0 + 3))
      with (JS.Num d).
    cbn [JS.add JS.strict_eq JS.loose_eq records decode_from
         deltaLine deltaStartColumn length_ typeCode modifierBits].
    unfold extract. rewrite filter_cons. cbn [abs_typeCode].
    destruct (Z.eqb_spec a 0) as [Ha|Ha];
      (destruct (Z.eqb_spec d s) as [Hd|Hd];
       [rewrite decide_True by done | rewrite decide_False by done]);
      rewrite IH; unfold extract; cbn [map];
      by rewrite <- ?app_assoc.
Qed.

Lemma extract_count (rs : list TokenRecord) (l c s : Z) :
  length (extract (decode_from l c rs) s)
  = length (filter (fun r => typeCode r = s) rs).
Proof.
  revert l c. induction rs as [|r rs IH]; intros l c; [done|].
  unfold extract in *. cbn [decode_from]. rewrite !filter_cons.
  cbn [abs_typeCode]. destruct (decide (typeCode r = s)); simpl;
    by rewrite IH.
Qed.

(** ** The heap *)

Lemma fresh_unused (h : gmap loc (list Z)) : h !! fresh (dom h) = None.
Proof. apply not_elem_of_dom, is_fresh. Qed.

Lemma fresh_differs (h : gmap loc (list Z)) (l : loc) (a : list Z) :
  h !! l = Some a -> fresh (dom h) <> l.
Proof. intros H E. rewrite <- E, fresh_unused in H. done. Qed.

Lemma deref_Some (h : gmap loc (list Z)) (l : loc) (a : list Z) :
  h !! l = Some a -> deref h l = a.
Proof. unfold deref. by intros ->. Qed.

(** ** Claims about the delta patcher *)

(** C1. Under the contract on the edit list (offsets into the original
    buffer, listed left to right, non-overlapping, inside the buffer),
    [applyDelta] allocates a new array whose content is the previous
    buffer with every splice applied, the rightmost first, and whose
    length is the previous length plus the sum of
    [insertedData.length - deleteCount]. *)
Theorem applyDelta_splices (st : state) (prev : SemanticTokens)
    (delta : SemanticTokensEdits) (previousBuffer : list Z) :
  heap st !! data prev = Some previousBuffer ->
  Forall u32 previousBuffer ->
  Forall edit_u32 (edits delta) ->
  contract 0 (edits delta) (len previousBuffer) ->
  applyDelta st prev delta
  = Ok (with_heap st
          (<[fresh (dom (heap st)) :=
               apply_spec previousBuffer (edits delta)]> (heap st)),
        mkTokens (edits_resultId delta) (fresh (dom (heap st))))
  /\ len (apply_spec previousBuffer (edits delta))
     = len previousBuffer + length_change (edits delta).
Proof.
  intros Hprev Hbuf Hedits Hc.
  pose proof (applyDelta_data_contract _ _ Hbuf Hedits Hc) as Hdata.
  split.
  - unfold applyDelta. by rewrite (deref_Some _ _ _ Hprev), Hdata.
  - by apply applyDelta_data_length.
Qed.

Lemma applyDelta_splices_witness :
  applyDelta (session two_records) first_tokens
             (mkEdits (Some "r2") [replace_second])
  = Ok (with_heap (session two_records)
          (<[fresh (dom (heap (session two_records))) :=
               [0; 0; 3; 1; 0; 1; 0; 4; 3; 0]]>
             (heap (session two_records))),
        mkTokens (Some "r2") (fresh (dom (heap (session two_records)))))
  /\ len [0; 0; 3; 1; 0; 1; 0; 4; 3; 0] = 10 + 0.
Proof.
  apply (applyDelta_splices (session two_records) first_tokens
           (mkEdits (Some "r2") [replace_second]) two_records).
  - reflexivity.
  - repeat constructor; unfold u32; lia.
  - repeat constructor; unfold u32; lia.
  - simpl. unfold len_of. simpl. lia.
Defined.

(** C6. Patching with an empty edit list yields an array whose content
    equals the previous buffer. *)
Theorem applyDelta_no_edits (st : state) (prev : SemanticTokens)
    (delta : SemanticTokensEdits) (buffer : list Z) :
  heap st !! data prev = Some buffer ->
  Forall u32 buffer ->
  edits delta = [] ->
  applyDelta st prev delta
  = Ok (with_heap st (<[fresh (dom (heap st)) := buffer]> (heap st)),
        mkTokens (edits_resultId delta) (fresh (dom (heap st)))).
Proof.
  intros Hprev Hbuf Hnil. unfold applyDelta.
  rewrite (deref_Some _ _ _ Hprev), Hnil.
  rewrite applyDelta_data_contract; [done|done|constructor|].
  simpl. apply len_nonneg.
Qed.

Lemma applyDelta_no_edits_witness :
  applyDelta (session two_records) first_tokens (mkEdits (Some "r2") [])
  = Ok (with_heap (session two_records)
          (<[fresh (dom (heap (session two_records))) := two_records]>
             (heap (session two_records))),
        mkTokens (Some "r2") (fresh (dom (heap (session two_records))))).
Proof.
  apply (applyDelta_no_edits (session two_records) first_tokens
           (mkEdits (Some "r2") []) two_records).
  - reflexivity.
  - repeat constructor; unfold u32; lia.
  - reflexivity.
Defined.

Example applyDelta_data_patch_example :
  applyDelta_data two_records [replace_second]
  = Ok [0; 0; 3; 1; 0; 1; 0; 4; 3; 0].
Proof. vm_compute. reflexivity. Qed.

(** ** Claims about extraction *)

Lemma records_length (data : list Z) :
  5 * len_of (records data) <= len data.
Proof.
  induction data as [data Hshort | a b c d e rest IH] using list_ind5.
  - destruct data as [|? [|? [|? [|? [|? ?]]]]];
      [..| simpl in Hshort; lia]; unfold len_of; simpl; lia.
  - unfold len_of in *. simpl in *. lia.
Qed.

Lemma records_u32 (data : list Z) :
  Forall u32 data ->
  Forall (fun r => u32 (deltaLine r) /\ u32 (deltaStartColumn r)
                   /\ u32 (length_ r))
         (records data).
Proof.
  induction data as [data Hshort | a b c d e rest IH] using list_ind5.
  - intros _.
    by destruct data as [|? [|? [|? [|? [|? ?]]]]];
      [..| simpl in Hshort; lia].
  - intros H. do 5 (apply Forall_cons in H as [? H]).
    simpl. constructor; [done | by apply IH].
Qed.

(** Every sum formed while decoding [rs] from [(l, c)] is below the
    start plus one maximal integer per record. *)
Lemma decode_from_bounded (rs : list TokenRecord) (l c : Z) :
  0 <= l -> 0 <= c ->
  Forall (fun r => u32 (deltaLine r) /\ u32 (deltaStartColumn r)
                   /\ u32 (length_ r)) rs ->
  Forall (fun a =>
            0 <= startLine a <= l + len_of rs * 4294967295
            /\ 0 <= startColumn a <= c + len_of rs * 4294967295
            /\ 0 <= abs_length a <= 4294967295)
         (decode_from l c rs).
Proof.
  intros Hl Hc Hrs. revert l c Hl Hc.
  induction Hrs as [|r rs (Hdl & Hdc & Hlen) _ IH]; intros l c Hl Hc;
    [constructor|].
  unfold u32 in *. cbn [decode_from].
  set (l1 := l + deltaLine r).
  set (c1 := if deltaLine r =? 0 then c + deltaStartColumn r
             else deltaStartColumn r).
  assert (Hc1 : 0 <= c1 <= c + 4294967295)
    by (subst c1; destruct (_ =? 0); lia).
  assert (Hsz : len_of (r :: rs) = len_of rs + 1)
    by (unfold len_of; simpl; lia).
  rewrite Hsz. constructor.
  - pose proof (len_nonneg rs). simpl. lia.
  - eapply Forall_impl; [apply (IH l1 c1); subst l1; lia|].
    simpl. intros a. subst l1. lia.
Qed.

(** On a stream of at most ten million unsigned 32-bit integers (one
    more is allowed for a completed last record) no sum passes 2^53. *)
Lemma decode_exact (data : list Z) :
  Forall u32 data ->
  len data <= 10000001 ->
  Forall exact_in_double (decode data).
Proof.
  intros Hdata Hlen. unfold decode.
  pose proof (records_length data) as Hn.
  eapply Forall_impl;
    [apply (decode_from_bounded _ 0 0); [lia | lia | by apply records_u32]|].
  simpl. intros a. unfold exact_in_double. lia.
Qed.

(** C2. On a stream made of whole 5-integer records, of at most ten
    million unsigned 32-bit integers, with a defined sentinel,
    [computeInactiveRanges] returns, in stream order, one single-line
    range per decoded record whose [typeCode] is the sentinel; the
    ranges are ordered by [(startLine, startColumn)]; the result is
    empty when the stream is empty or no record matches.  Within the
    bound every sum the loop forms is at most 2^53, so the exact sums of
    the decoded records are the doubles the code computes. *)
Theorem computeInactiveRanges_extracts (sentinelTypeIndex : Z)
    (buffer : list Z) :
  len buffer mod 5 = 0 ->
  Forall u32 buffer ->
  len buffer <= 10000000 ->
  computeInactiveRanges (JS.Num sentinelTypeIndex) buffer
  = extract (decode buffer) sentinelTypeIndex
  /\ StronglySorted range_le
       (computeInactiveRanges (JS.Num sentinelTypeIndex) buffer)
  /\ (Forall (fun a => abs_typeCode a <> sentinelTypeIndex) (decode buffer) ->
      computeInactiveRanges (JS.Num sentinelTypeIndex) buffer = [])
  /\ computeInactiveRanges (JS.Num sentinelTypeIndex) [] = []
  /\ Forall exact_in_double (decode buffer).
Proof.
  intros Hmod Hbuf Hlen.
  rewrite computeInactiveRanges_is_extract by done.
  split; [done|]. split; [|split; [|split]].
  - apply extract_sorted. unfold decode.
    apply (decode_from_sorted _ 0 0), records_nonneg, Hbuf.
  - apply extract_no_match.
  - reflexivity.
  - apply decode_exact; [done | lia].
Qed.

Lemma computeInactiveRanges_extracts_witness :
  computeInactiveRanges (JS.Num 0) mixed_records
  = [mkRange (mkPosition (JS.Num 0) (JS.Num 2))
             (mkPosition (JS.Num 0) (JS.Num 5));
     mkRange (mkPosition (JS.Num 0) (JS.Num 7))
             (mkPosition (JS.Num 0) (JS.Num 8));
     mkRange (mkPosition (JS.Num 3) (JS.Num 0))
             (mkPosition (JS.Num 3) (JS.Num 4))]
  /\ StronglySorted range_le (computeInactiveRanges (JS.Num 0) mixed_records)
  /\ (Forall (fun a => abs_typeCode a <> 0) (decode mixed_records) ->
      computeInactiveRanges (JS.Num 0) mixed_records = [])
  /\ computeInactiveRanges (JS.Num 0) [] = []
  /\ Forall exact_in_double (decode mixed_records).
Proof.
  apply (computeInactiveRanges_extracts 0 mixed_records).
  - reflexivity.
  - repeat constructor; unfold u32; lia.
  - unfold len_of. simpl. lia.
Defined.

(** ** Claims about remapping *)

Lemma replaceInactiveRanges_unfold (st : state) (tokens : SemanticTokens) :
  replaceInactiveRanges st tokens
  = (with_heap st
       (<[fresh (dom (heap st)) :=
            replaceInactiveRanges_data
              (inactiveCodeTokenTypeIndex st)
              (inactiveCodeTokenTypeReplaceIndex st)
              (deref (heap st) (data tokens))]> (heap st)),
     mkTokens (resultId tokens) (fresh (dom (heap st)))).
Proof. reflexivity. Qed.

(** C3. [replaceInactiveRanges] returns a new array and leaves every
    array that existed before, the caller's buffer included, as it was.
    The new array has the length of the input; at every index it holds
    the input's integer, except that a [typeCode] slot holding the
    sentinel holds the replacement index. *)
Theorem replaceInactiveRanges_copies (st : state) (tokens : SemanticTokens)
    (buffer : list Z) :
  heap st !! data tokens = Some buffer ->
  let st' := (replaceInactiveRanges st tokens).1 in
  let out := (replaceInactiveRanges st tokens).2 in
  heap st !! data out = None
  /\ resultId out = resultId tokens
  /\ heap st' !! data tokens = Some buffer
  /\ (forall l a, heap st !! l = Some a -> heap st' !! l = Some a)
  /\ length (deref (heap st') (data out)) = length buffer
  /\ forall i,
       deref (heap st') (data out) !! i
       = remapped (inactiveCodeTokenTypeIndex st)
                  (inactiveCodeTokenTypeReplaceIndex st) i <$> buffer !! i.
Proof.
  intros Hbuf. rewrite replaceInactiveRanges_unfold. cbn [fst snd data resultId].
  unfold with_heap. cbn [heap].
  assert (Hkeep : forall l a, heap st !! l = Some a ->
            <[fresh (dom (heap st)) :=
                replaceInactiveRanges_data
                  (inactiveCodeTokenTypeIndex st)
                  (inactiveCodeTokenTypeReplaceIndex st)
                  (deref (heap st) (data tokens))]> (heap st) !! l = Some a).
  { intros l a Hl. rewrite lookup_insert_ne; [done|].
    by apply (fresh_differs _ _ a). }
  repeat split.
  - apply fresh_unused.
  - by apply Hkeep.
  - exact Hkeep.
  - unfold deref at 1. rewrite lookup_insert_eq. simpl.
    by rewrite replaceInactiveRanges_data_length, (deref_Some _ _ _ Hbuf).
  - intros i. unfold deref at 1. rewrite lookup_insert_eq. simpl.
    by rewrite replaceInactiveRanges_data_lookup, (deref_Some _ _ _ Hbuf).
Qed.

Lemma replaceInactiveRanges_copies_witness :
  heap (replaceInactiveRanges (session one_inactive) first_tokens).1
    !! 1%positive = Some one_inactive
  /\ deref (heap (replaceInactiveRanges (session one_inactive) first_tokens).1)
           (data (replaceInactiveRanges (session one_inactive) first_tokens).2)
       !! 3%nat
     = Some 2.
Proof.
  destruct (replaceInactiveRanges_copies (session one_inactive) first_tokens
              one_inactive eq_refl) as (_ & _ & Hkept & _ & _ & Hcopy).
  split; [exact Hkept | exact (Hcopy 3%nat)].
Defined.

(** ** The entry points *)

Lemma provideDocumentSemanticTokens_unfold
    (visibleTextEditors : list TextEditor) (st : state) (doc : TextDocument)
    (tokens : SemanticTokens) :
  provideDocumentSemanticTokens visibleTextEditors st doc tokens
  = (mkState
       (inactiveCodeTokenTypeIndex st)
       (inactiveCodeTokenTypeReplaceIndex st)
       (<[fresh (dom (heap st)) :=
            replaceInactiveRanges_data
              (inactiveCodeTokenTypeIndex st)
              (inactiveCodeTokenTypeReplaceIndex st)
              (deref (heap st) (data tokens))]> (heap st))
       (<[doc := tokens]> (lastTokens st))
       (<[doc := computeInactiveRanges (inactiveCodeTokenTypeIndex st)
                   (deref (heap st) (data tokens))]>
          (lastInactiveRanges st))
       (decorate_visible visibleTextEditors doc
          (computeInactiveRanges (inactiveCodeTokenTypeIndex st)
             (deref (heap st) (data tokens)))
          (decorations st)),
     mkTokens (resultId tokens) (fresh (dom (heap st)))).
Proof. reflexivity. Qed.

(** C4. A delta whose base cannot be resolved (no tokens stored for the
    document, or stored under another [resultId]) is returned as it
    came, and the whole state, the document's entry included, stays as
    it was. *)
Theorem unresolved_delta_returned
    (visibleTextEditors : list TextEditor) (st : state) (doc : TextDocument)
    (previousResultId : string) (delta : SemanticTokensEdits) :
  (lastTokens st !! doc = None \/
   exists previousTokens,
     lastTokens st !! doc = Some previousTokens /\
     resultId previousTokens <> Some previousResultId) ->
  provideDocumentSemanticTokensEdits visibleTextEditors st doc
    previousResultId (inr delta)
  = Ok (st, inr delta).
Proof.
  intros [Hnone | (previousTokens & Hsome & Hid)]; simpl.
  - by rewrite Hnone.
  - rewrite Hsome. by destruct (decide _).
Qed.

Lemma unresolved_delta_returned_witness :
  provideDocumentSemanticTokensEdits [] (after_first two_records)
    some_document "r0" (inr (mkEdits (Some "r2") [replace_second]))
  = Ok (after_first two_records, inr (mkEdits (Some "r2") [replace_second])).
Proof.
  apply unresolved_delta_returned.
  right. exists first_tokens. split; [reflexivity | discriminate].
Defined.

(** C5, as the code has it.  No length check exists: a full
    transmission of any stream, whole records or not, returns normally,
    is cached as it came, and a remapped copy of the same length is
    forwarded.  A trailing partial record is visited too: in the copy
    every [typeCode] slot that holds the sentinel is replaced, the one
    of a last record without modifier bits included, and with a numeric
    sentinel there is one range per record that has its [typeCode]
    slot and holds the sentinel there. *)
Theorem any_length_is_processed
    (visibleTextEditors : list TextEditor) (st : state) (doc : TextDocument)
    (previousResultId : string) (tokens : SemanticTokens) (buffer : list Z) :
  heap st !! data tokens = Some buffer ->
  exists st' out forwarded,
    provideDocumentSemanticTokensEdits visibleTextEditors st doc
      previousResultId (inl tokens) = Ok (st', inl out)
    /\ lastTokens st' !! doc = Some tokens
    /\ heap st' !! data tokens = Some buffer
    /\ lastInactiveRanges st' !! doc
       = Some (computeInactiveRanges (inactiveCodeTokenTypeIndex st) buffer)
    /\ heap st' !! data out = Some forwarded
    /\ length forwarded = length buffer
    /\ (forall i,
          forwarded !! i
          = remapped (inactiveCodeTokenTypeIndex st)
                     (inactiveCodeTokenTypeReplaceIndex st) i
              <$> buffer !! i)
    /\ (forall s,
          inactiveCodeTokenTypeIndex st = JS.Num s ->
          length (computeInactiveRanges (inactiveCodeTokenTypeIndex st) buffer)
          = length (filter (fun r => typeCode r = s)
                           (records (with_missing_modifier buffer)))).
Proof.
  intros Hbuf. cbn [provideDocumentSemanticTokensEdits].
  rewrite provideDocumentSemanticTokens_unfold.
  rewrite (deref_Some _ _ _ Hbuf).
  eexists _, _,
    (replaceInactiveRanges_data (inactiveCodeTokenTypeIndex st)
       (inactiveCodeTokenTypeReplaceIndex st) buffer).
  split; [reflexivity|].
  cbn [lastTokens heap lastInactiveRanges data].
  repeat split.
  - apply lookup_insert_eq.
  - rewrite lookup_insert_ne; [done|]. by apply (fresh_differs _ _ buffer).
  - apply lookup_insert_eq.
  - apply lookup_insert_eq.
  - apply replaceInactiveRanges_data_length.
  - apply replaceInactiveRanges_data_lookup.
  - intros s ->. unfold computeInactiveRanges.
    rewrite computeInactiveRanges_loop_any. apply extract_count.
Qed.

Lemma any_length_is_processed_witness :
  exists st' out,
    provideDocumentSemanticTokensEdits [] (session nine_integers)
      some_document "r0" (inl first_tokens) = Ok (st', inl out)
    /\ lastTokens st' !! some_document = Some first_tokens
    /\ heap st' !! 1%positive = Some nine_integers
    /\ (exists ranges,
          lastInactiveRanges st' !! some_document = Some ranges
          /\ length ranges = 2%nat)
    /\ (exists forwarded,
          heap st' !! data out = Some forwarded
          /\ length forwarded = 9%nat
          /\ forwarded !! 8%nat = Some 2).
Proof.
  destruct (any_length_is_processed [] (session nine_integers) some_document
              "r0" first_tokens nine_integers eq_refl)
    as (st' & out & forwarded & Hcall & Hcached & Hkept & Hranges & Hout
        & Hlen & Hslots & Hcount).
  exists st', out. split; [exact Hcall|]. split; [exact Hcached|].
  split; [exact Hkept|]. split.
  - eexists. split; [exact Hranges|]. exact (Hcount 0 eq_refl).
  - exists forwarded. split; [exact Hout|]. split; [exact Hlen|].
    exact (Hslots 8%nat).
Defined.

(** C5, as the specification has it, fails: the stream of nine
    integers is not rejected.  The call returns normally, the stream is
    cached, its last record, which has no modifier bits, yields a range
    of its own, and the copy forwarded has that record's [typeCode]
    replaced. *)
Lemma partial_record_not_rejected :
  match provideDocumentSemanticTokensEdits [] (session nine_integers)
          some_document "r0" (inl first_tokens) with
  | Ok (st', inl out) =>
      len nine_integers mod 5 <> 0
      /\ (exists cached,
            lastTokens st' !! some_document = Some cached
            /\ deref (heap st') (data cached) = nine_integers)
      /\ lastInactiveRanges st' !! some_document
         = Some [mkRange (mkPosition (JS.Num 2) (JS.Num 4))
                         (mkPosition (JS.Num 2) (JS.Num 10));
                 mkRange (mkPosition (JS.Num 3) (JS.Num 2))
                         (mkPosition (JS.Num 3) (JS.Num 5))]
      /\ deref (heap st') (data out) = [2; 4; 6; 2; 0; 1; 2; 3; 2]
  | _ => False
  end.
Proof.
  vm_compute. split; [discriminate|]. split; [|split; reflexivity].
  eexists. split; reflexivity.
Qed.

(** ** A session without the sentinel *)

Lemma computeInactiveRanges_loop_undefined (data : list Z) :
  len data mod 5 = 0 \/ len data mod 5 = 4 ->
  forall (l c : JS.value) (acc : list Range),
    (fold_left (computeInactiveRanges_step JS.Undefined data)
               (seq 0 (tokenIterations (len data))) (l, c, acc)).2
    = acc.
Proof.
  induction data as [data Hshort | a b c d e rest IH] using list_ind5.
  - intros Hmod l c acc.
    destruct data as [|a0 [|b0 [|c0 [|d0 [|e0 ?]]]]];
      [done | | | | done | simpl in Hshort; lia];
      exfalso; vm_compute in Hmod; destruct Hmod; discriminate.
  - rewrite mod5_skip5. intros Hmod l c0 acc.
    rewrite tokenIterations_skip5. cbn [seq fold_left].
    rewrite fold_left_seq_shift.
    rewrite (fold_left_pointwise _
               (computeInactiveRanges_step JS.Undefined rest))
      by (intros; apply computeInactiveRanges_step_skip5).
    unfold computeInactiveRanges_step at 2.
    change (load (a :: b :: c :: d :: e :: rest) (5 * Z.of_nat 0 + 3))
      with (JS.Num d).
    cbn [JS.loose_eq]. apply IH, Hmod.
Qed.

Lemma computeInactiveRanges_undefined (data : list Z) :
  len data mod 5 = 0 \/ len data mod 5 = 4 ->
  computeInactiveRanges JS.Undefined data = [].
Proof.
  intros Hmod. apply computeInactiveRanges_loop_undefined, Hmod.
Qed.

Lemma remapped_undefined (r : JS.value) (i : nat) (x : Z) :
  remapped JS.Undefined r i x = x.
Proof. unfold remapped. simpl. by rewrite andb_false_r. Qed.

Lemma replaceInactiveRanges_data_undefined (r : JS.value) (src : list Z) :
  replaceInactiveRanges_data JS.Undefined r src = src.
Proof.
  apply list_eq. intros i. rewrite replaceInactiveRanges_data_lookup.
  destruct (src !! i) as [x|]; [|done]. simpl.
  by rewrite remapped_undefined.
Qed.

(** C7. In a session whose sentinel is undefined, on every stream of
    whole records, extraction returns the empty list and the remap
    leaves every integer, so every [typeCode], as it is; the pipeline
    still runs: the transmission is cached, the empty list is stored
    for the document, and a copy equal to the stream is forwarded. *)
Theorem undefined_sentinel_disables
    (visibleTextEditors : list TextEditor) (st : state) (doc : TextDocument)
    (tokens : SemanticTokens) (buffer : list Z) :
  inactiveCodeTokenTypeIndex st = JS.Undefined ->
  heap st !! data tokens = Some buffer ->
  len buffer mod 5 = 0 ->
  let st' :=
    (provideDocumentSemanticTokens visibleTextEditors st doc tokens).1 in
  let out :=
    (provideDocumentSemanticTokens visibleTextEditors st doc tokens).2 in
  computeInactiveRanges (inactiveCodeTokenTypeIndex st) buffer = []
  /\ replaceInactiveRanges_data (inactiveCodeTokenTypeIndex st)
       (inactiveCodeTokenTypeReplaceIndex st) buffer = buffer
  /\ lastTokens st' !! doc = Some tokens
  /\ lastInactiveRanges st' !! doc = Some []
  /\ heap st' !! data out = Some buffer
  /\ resultId out = resultId tokens.
Proof.
  intros Hs Hbuf Hmod. rewrite provideDocumentSemanticTokens_unfold.
  cbn [fst snd lastTokens heap lastInactiveRanges data resultId].
  rewrite Hs, (deref_Some _ _ _ Hbuf), replaceInactiveRanges_data_undefined.
  rewrite computeInactiveRanges_undefined by (by left).
  repeat split; apply lookup_insert_eq.
Qed.

Lemma undefined_sentinel_disables_witness :
  computeInactiveRanges JS.Undefined mixed_records = []
  /\ replaceInactiveRanges_data JS.Undefined JS.Undefined mixed_records
     = mixed_records
  /\ lastTokens
       (provideDocumentSemanticTokens []
          (initial_state {[1%positive := mixed_records]}) some_document
          first_tokens).1 !! some_document = Some first_tokens
  /\ lastInactiveRanges
       (provideDocumentSemanticTokens []
          (initial_state {[1%positive := mixed_records]}) some_document
          first_tokens).1 !! some_document = Some []
  /\ heap
       (provideDocumentSemanticTokens []
          (initial_state {[1%positive := mixed_records]}) some_document
          first_tokens).1
       !! data (provideDocumentSemanticTokens []
                  (initial_state {[1%positive := mixed_records]})
                  some_document first_tokens).2
     = Some mixed_records
  /\ resultId (provideDocumentSemanticTokens []
                 (initial_state {[1%positive := mixed_records]})
                 some_document first_tokens).2
     = Some "r1".
Proof.
  apply (undefined_sentinel_disables []
           (initial_state {[1%positive := mixed_records]}) some_document
           first_tokens mixed_records); reflexivity.
Defined.

(** ** What the cache holds *)

(** C9. After a full or a patched transmission, the tokens cached for
    the document point to an array holding the stream as received (or
    as patched), while the forwarded tokens point to another array
    holding its remapped copy. *)
Theorem cache_keeps_unremapped
    (visibleTextEditors : list TextEditor) (st st' : state)
    (doc : TextDocument) (previousResultId : string)
    (tokens : SemanticTokens + SemanticTokensEdits) (out : SemanticTokens) :
  (forall full, tokens = inl full -> is_Some (heap st !! data full)) ->
  provideDocumentSemanticTokensEdits visibleTextEditors st doc
    previousResultId tokens = Ok (st', inl out) ->
  exists cached content,
    lastTokens st' !! doc = Some cached
    /\ heap st' !! data cached = Some content
    /\ data out <> data cached
    /\ heap st' !! data out
       = Some (replaceInactiveRanges_data
                 (inactiveCodeTokenTypeIndex st)
                 (inactiveCodeTokenTypeReplaceIndex st) content)
    /\ match tokens with
       | inl full => cached = full /\ heap st !! data full = Some content
       | inr delta =>
           exists previousTokens,
             lastTokens st !! doc = Some previousTokens
             /\ resultId previousTokens = Some previousResultId
             /\ applyDelta_data (deref (heap st) (data previousTokens))
                                (edits delta) = Ok content
       end.
Proof.
  intros Halloc. destruct tokens as [full | delta];
    cbn [provideDocumentSemanticTokensEdits].
  - destruct (Halloc full eq_refl) as [content Hcontent].
    rewrite provideDocumentSemanticTokens_unfold.
    intros [= <- <-]. exists full, content.
    cbn [lastTokens heap data]. rewrite (deref_Some _ _ _ Hcontent).
    pose proof (fresh_differs _ _ _ Hcontent) as Hne.
    repeat split; try done.
    + apply lookup_insert_eq.
    + by rewrite lookup_insert_ne.
    + apply lookup_insert_eq.
  - destruct (lastTokens st !! doc) as [previousTokens|] eqn:Hprev; [|done].
    destruct (decide _) as [Hid|]; [|done].
    unfold applyDelta.
    destruct (applyDelta_data _ _) as [content|] eqn:Hdata; [|done].
    cbn [alloc]. rewrite provideDocumentSemanticTokens_unfold.
    intros [= <- <-].
    set (l1 := fresh (dom (heap st))).
    exists (mkTokens (edits_resultId delta) l1), content.
    unfold with_heap. cbn [lastTokens heap data inactiveCodeTokenTypeIndex
                           inactiveCodeTokenTypeReplaceIndex].
    set (h1 := <[l1 := content]> (heap st)).
    assert (H1 : h1 !! l1 = Some content) by apply lookup_insert_eq.
    pose proof (fresh_differs _ _ _ H1) as Hne.
    rewrite (deref_Some _ _ _ H1).
    repeat split; try done.
    + apply lookup_insert_eq.
    + by rewrite lookup_insert_ne.
    + apply lookup_insert_eq.
    + by exists previousTokens.
Qed.

Lemma cache_keeps_unremapped_witness :
  exists cached,
    lastTokens (after_first one_inactive) !! some_document = Some cached
    /\ heap (after_first one_inactive) !! data cached = Some [2; 4; 6; 0; 0]
    /\ heap (after_first one_inactive)
         !! fresh (dom (heap (session one_inactive)))
       = Some [2; 4; 6; 2; 0].
Proof.
  destruct (cache_keeps_unremapped [] (session one_inactive)
              (after_first one_inactive) some_document "r0"
              (inl first_tokens)
              (mkTokens (Some "r1") (fresh (dom (heap (session one_inactive))))))
    as (cached & content & Hcached & Hcontent & _ & Hout & -> & Hsame).
  - intros full [= <-]. exists one_inactive. reflexivity.
  - reflexivity.
  - exists first_tokens. split; [exact Hcached|].
    assert (content = one_inactive) as ->.
    { assert (Some content = Some one_inactive) as [= ->]; [|done].
      rewrite <- Hsame. reflexivity. }
    split; [exact Hcontent | exact Hout].
Defined.

(** ** Legend negotiation *)

Lemma scan_step_comment (tokenTypes : list string) (index : JS.value)
    (i : nat) :
  tokenTypes !! i = Some "comment" ->
  scan_step tokenTypes index i = JS.Num (Z.of_nat i).
Proof. unfold scan_step. by intros ->. Qed.

Lemma scan_step_other (tokenTypes : list string) (index : JS.value)
    (i : nat) :
  tokenTypes !! i <> Some "comment" ->
  scan_step tokenTypes index i = index.
Proof.
  unfold scan_step. intros H.
  destruct (tokenTypes !! i) as [name|]; [|done].
  destruct (String.eqb_spec name "comment") as [->|]; done.
Qed.

(** The scan over the first [n] names either found none, or holds the
    index of the last one found. *)
Lemma scan_prefix (tokenTypes : list string) (index : JS.value) (n : nat) :
  let r := fold_left (scan_step tokenTypes) (seq 0 n) index in
  (r = index /\ forall j, (j < n)%nat -> tokenTypes !! j <> Some "comment")
  \/ (exists i, (i < n)%nat /\ r = JS.Num (Z.of_nat i)
        /\ tokenTypes !! i = Some "comment"
        /\ forall j, (i < j < n)%nat -> tokenTypes !! j <> Some "comment").
Proof.
  induction n as [|n IH]; cbv zeta in *.
  - left. split; [done|]. intros j Hj. lia.
  - rewrite seq_snoc_fold.
    destruct (decide (tokenTypes !! n = Some "comment")) as [Hn|Hn].
    + right. exists n. rewrite scan_step_comment by done.
      repeat split; [lia|done|]. intros j Hj. lia.
    + rewrite scan_step_other by done.
      destruct IH as [[Hr Hnone] | (i & Hi & Hr & Hc & Hlast)].
      * left. split; [done|]. intros j Hj.
        destruct (decide (j = n)) as [->|]; [done|]. apply Hnone. lia.
      * right. exists i. repeat split; [lia|done|done|].
        intros j Hj. destruct (decide (j = n)) as [->|]; [done|].
        apply Hlast. lia.
Qed.

Lemma scan_legend_result (tokenTypes : list string) (index : JS.value) :
  (scan_legend tokenTypes index = index
   /\ forall j, tokenTypes !! j <> Some "comment")
  \/ (exists i, (i < length tokenTypes)%nat
        /\ scan_legend tokenTypes index = JS.Num (Z.of_nat i)
        /\ tokenTypes !! i = Some "comment"
        /\ forall j, (i < j)%nat -> tokenTypes !! j <> Some "comment").
Proof.
  destruct (scan_prefix tokenTypes index (length tokenTypes))
    as [[Hr Hnone] | (i & Hi & Hr & Hc & Hlast)].
  - left. split; [exact Hr|]. intros j Hj.
    apply (Hnone j); [|done]. by eapply lookup_lt_Some.
  - right. exists i. repeat split; [done|exact Hr|done|].
    intros j Hij Hj. apply (Hlast j); [|done].
    split; [done|]. by eapply lookup_lt_Some.
Qed.

(** C10. With a semantic-tokens capability, the replacement index
    becomes the legend's length whether or not the legend names
    ["comment"]; the sentinel becomes the index of the last
    ["comment"], and keeps its previous value when there is none. *)
Theorem initialize_records_last_comment (st : state)
    (capabilities : ServerCapabilities) (legend : SemanticTokensLegend) :
  semanticTokensProvider capabilities = Some legend ->
  inactiveCodeTokenTypeReplaceIndex (initialize st capabilities)
  = JS.Num (len_of (tokenTypes legend))
  /\ (forall i,
        tokenTypes legend !! i = Some "comment" ->
        (forall j, (i < j)%nat -> tokenTypes legend !! j <> Some "comment") ->
        inactiveCodeTokenTypeIndex (initialize st capabilities)
        = JS.Num (Z.of_nat i))
  /\ ((forall j, tokenTypes legend !! j <> Some "comment") ->
      inactiveCodeTokenTypeIndex (initialize st capabilities)
      = inactiveCodeTokenTypeIndex st).
Proof.
  intros Hcap. unfold initialize. rewrite Hcap.
  cbn [inactiveCodeTokenTypeReplaceIndex inactiveCodeTokenTypeIndex].
  split; [done|].
  destruct (scan_legend_result (tokenTypes legend)
              (inactiveCodeTokenTypeIndex st))
    as [[Hr Hnone] | (i' & Hi' & Hr & Hc & Hlast)].
  - split; [|done]. intros i Hi _. by destruct (Hnone i).
  - split.
    + intros i Hi Hafter. rewrite Hr. do 2 f_equal.
      destruct (Nat.lt_trichotomy i i') as [Hlt | [-> | Hgt]]; [|done|].
      * by destruct (Hafter i' Hlt).
      * by destruct (Hlast i Hgt).
    + intros Hnone. by destruct (Hnone i').
Qed.

Lemma initialize_records_last_comment_witness :
  inactiveCodeTokenTypeReplaceIndex
    (initialize (initial_state ∅)
       (mkCapabilities (Some (mkLegend ["comment"; "keyword"; "comment"]))))
  = JS.Num 3
  /\ inactiveCodeTokenTypeIndex
       (initialize (initial_state ∅)
          (mkCapabilities (Some (mkLegend ["comment"; "keyword"; "comment"]))))
     = JS.Num 2.
Proof.
  destruct (initialize_records_last_comment (initial_state ∅)
              (mkCapabilities (Some (mkLegend ["comment"; "keyword"; "comment"])))
              (mkLegend ["comment"; "keyword"; "comment"]) eq_refl)
    as (Ha & Hs & _).
  split; [exact Ha|].
  apply (Hs 2%nat); [reflexivity|].
  intros [|[|[|j]]] Hj; first [lia | discriminate].
Defined.

(** ** Remapping twice *)






Example end_to_end_scenario :
  let r := provideDocumentSemanticTokens [] (session one_inactive)
             some_document first_tokens in
  deref (heap r.1) (data r.2) = [2; 4; 6; 2; 0]
  /\ lastInactiveRanges r.1 !! some_document
     = Some [mkRange (mkPosition (JS.Num 2) (JS.Num 4))
                     (mkPosition (JS.Num 2) (JS.Num 10))]
  /\ deref (heap r.1) 1%positive = [2; 4; 6; 0; 0].
Proof. vm_compute. repeat split. Qed.

(** * Further properties of the code *)

(** ** [copy] at arbitrary offsets *)

Lemma ToUint32_is_u32 (v : JS.value) : u32 (JS.ToUint32 v).
Proof.
  unfold u32. destruct v as [| |z]; simpl; try lia.
  apply Z.mod_pos_bound. lia.
Qed.

Lemma store_lookup (a : list Z) (i : Z) (v : JS.value) (j : nat) :
  store a i v !! j
  = if decide (i = Z.of_nat j)
    then (fun _ => JS.ToUint32 v) <$> a !! j
    else a !! j.
Proof.
  unfold store. destruct (Z.leb_spec 0 i) as [Hi|Hi].
  - rewrite list_lookup_insert.
    destruct (decide (i = Z.of_nat j)) as [->|Hne].
    + rewrite Nat2Z.id.
      destruct (decide (j = j /\ (j < length a)%nat)) as [[_ Hlt]|Hn].
      * destruct (lookup_lt_is_Some_2 a j Hlt) as [x ->]. done.
      * rewrite (lookup_ge_None_2 a j); [done|]. lia.
    + rewrite decide_False; [done|]. intros [E _]. lia.
  - rewrite decide_False; [done|]. lia.
Qed.

Lemma copy_loop_lookup (src dest : list Z) (so d : Z) (k j : nat) :
  fold_left
    (fun dest i =>
       store dest (d + Z.of_nat i) (load src (so + Z.of_nat i)))
    (seq 0 k) dest !! j
  = if (d <=? Z.of_nat j) && (Z.of_nat j <? d + Z.of_nat k)
    then (fun _ => JS.ToUint32 (load src (so + (Z.of_nat j - d))))
           <$> dest !! j
    else dest !! j.
Proof.
  induction k as [|k IH].
  - cbn [seq fold_left].
    destruct (Z.leb_spec d (Z.of_nat j)),
             (Z.ltb_spec (Z.of_nat j) (d + Z.of_nat 0));
      simpl; try done. lia.
  - rewrite seq_snoc_fold, store_lookup, IH.
    destruct (decide (d + Z.of_nat k = Z.of_nat j)) as [E|E].
    + replace (so + (Z.of_nat j - d)) with (so + Z.of_nat k) by lia.
      destruct (Z.leb_spec d (Z.of_nat j)); [|lia].
      destruct (Z.ltb_spec (Z.of_nat j) (d + Z.of_nat k)); [lia|].
      destruct (Z.ltb_spec (Z.of_nat j) (d + Z.of_nat (S k))); [|lia].
      simpl. by destruct (dest !! j).
    + destruct (Z.leb_spec d (Z.of_nat j)); simpl; [|done].
      destruct (Z.ltb_spec (Z.of_nat j) (d + Z.of_nat k)),
               (Z.ltb_spec (Z.of_nat j) (d + Z.of_nat (S k)));
        try done; lia.
Qed.

(** X1. Whatever the offsets and the count, [copy] changes the target
    only inside the window [destOffset, destOffset + count), and only
    where the window meets the array: a slot there receives the source
    integer, or 0 when the source index is outside the source; the
    target never grows or shrinks. *)
Theorem copy_lookup (src dest : list Z) (srcOffset destOffset count : Z)
    (j : nat) :
  length (copy src srcOffset dest destOffset count) = length dest
  /\ copy src srcOffset dest destOffset count !! j
     = if (destOffset <=? Z.of_nat j) && (Z.of_nat j <? destOffset + count)
       then (fun _ =>
               JS.ToUint32 (load src (srcOffset + (Z.of_nat j - destOffset))))
              <$> dest !! j
       else dest !! j.
Proof.
  split; [apply copy_length|].
  unfold copy. rewrite copy_loop_lookup.
  destruct (Z.leb_spec destOffset (Z.of_nat j)); simpl; [|done].
  destruct (Z.ltb_spec (Z.of_nat j) (destOffset + Z.of_nat (Z.to_nat count))),
           (Z.ltb_spec (Z.of_nat j) (destOffset + count));
    try done; lia.
Qed.

(** ** The patcher on arbitrary edit lists *)

Lemma store_u32 (a : list Z) (i : Z) (v : JS.value) :
  Forall u32 a -> Forall u32 (store a i v).
Proof.
  intros Ha. unfold store. destruct (0 <=? i); [|done].
  apply Forall_insert; [done | apply ToUint32_is_u32].
Qed.

Lemma copy_u32 (src dest : list Z) (so d n : Z) :
  Forall u32 dest -> Forall u32 (copy src so dest d n).
Proof.
  intros Hd. unfold copy. generalize (Z.to_nat n) as k.
  induction k as [|k IH]; [done|].
  rewrite seq_snoc_fold. by apply store_u32.
Qed.

Lemma zeros_u32 (n : Z) : Forall u32 (zeros n).
Proof. apply Forall_replicate. unfold u32. lia. Qed.

Lemma applyDelta_step_u32 (srcData : list Z) (acc : Z * Z * list Z)
    (edit : SemanticTokensEdit) :
  Forall u32 acc.2 -> Forall u32 (applyDelta_step srcData acc edit).2.
Proof.
  destruct acc as [[s d] D]. simpl. intros HD. unfold applyDelta_step.
  destruct (_ =? 0); destruct (edit_data edit); simpl;
    repeat apply copy_u32; done.
Qed.

Lemma applyDelta_data_u32 (srcData : list Z)
    (es : list SemanticTokensEdit) (out : list Z) :
  applyDelta_data srcData es = Ok out -> Forall u32 out.
Proof.
  unfold applyDelta_data.
  destruct (_ <? 0); [done|].
  assert (Hinv : forall l acc,
    Forall u32 acc.2 ->
    Forall u32 (fold_left (applyDelta_step srcData) l acc).2).
  { induction l as [|e l IH]; intros acc Hacc; [done|].
    simpl. by apply IH, applyDelta_step_u32. }
  specialize (Hinv (rev es)
    (len srcData, len (zeros (len srcData + deltaLength_of es)),
     zeros (len srcData + deltaLength_of es)) (zeros_u32 _)).
  destruct (fold_left _ _ _) as [[s d] D]. simpl in Hinv.
  intros [= <-]. destruct (0 <? s); [by apply copy_u32 | done].
Qed.

Lemma deltaLength_of_bounded (es : list SemanticTokensEdit) :
  Forall (fun e => 0 <= deleteCount e <= 4294967296
                   /\ len (inserted e) <= 4294967296) es ->
  - (len_of es * 4294967296) <= deltaLength_of es
  <= len_of es * 4294967296.
Proof.
  induction 1 as [|e es [Hd Hi] _ IH].
  - unfold deltaLength_of, len_of. simpl. lia.
  - rewrite deltaLength_of_cons.
    pose proof (len_nonneg (inserted e)).
    assert (Hsz : len_of (e :: es) = len_of es + 1)
      by (unfold len_of; simpl; lia).
    rewrite Hsz. lia.
Qed.

(** X2. For an edit list of the size the protocol allows, applied to an
    array of at most 2^32 integers, every value the length sum takes
    stays within 2^53, where the code's double sum is the exact one.
    The patcher then throws [RangeError] when the announced length
    [previous + Σ (inserted − deleteCount)] is negative, and whenever it
    returns, the array has exactly the announced length and holds
    unsigned 32-bit integers, whether the edits overlap, run past the
    end or not. *)
Theorem applyDelta_data_outcome (srcData : list Z)
    (es : list SemanticTokensEdit) :
  len srcData <= 4294967296 ->
  bounded_edits es ->
  (forall k : nat,
     -9007199254740992 <= deltaLength_of (take k es) <= 9007199254740992
     /\ -9007199254740992 <= len srcData + deltaLength_of (take k es)
        <= 9007199254740992)
  /\ (len srcData + length_change es < 0 ->
      applyDelta_data srcData es = Throw RangeError)
  /\ (forall out,
        applyDelta_data srcData es = Ok out ->
        len out = len srcData + length_change es /\ Forall u32 out).
Proof.
  intros Hsrc [Hcount Hes]. split; [|split].
  - intros k.
    pose proof (deltaLength_of_bounded (take k es)) as Hsum.
    specialize (Hsum ltac:(by apply Forall_take)).
    pose proof (len_nonneg srcData).
    assert (Hk : 0 <= len_of (take k es) <= 1048576).
    { unfold len_of in *. rewrite length_take. lia. }
    lia.
  - intros Hneg. unfold applyDelta_data.
    rewrite deltaLength_of_length_change.
    by destruct (Z.ltb_spec (len srcData + length_change es) 0); [|lia].
  - intros out Hout. split.
    + by apply applyDelta_data_length.
    + by apply applyDelta_data_u32 in Hout.
Qed.

Lemma applyDelta_data_outcome_witness :
  applyDelta_data two_records [mkEdit 0 11 None] = Throw RangeError
  /\ forall out,
       applyDelta_data two_records [mkEdit 8 7 (Some [9])] = Ok out ->
       len out = 4 /\ Forall u32 out.
Proof.
  split.
  - destruct (applyDelta_data_outcome two_records [mkEdit 0 11 None])
      as (_ & Hthrow & _).
    + unfold len_of. simpl. lia.
    + split; [unfold len_of; simpl; lia|].
      constructor; [|constructor]. unfold inserted, len_of. simpl. lia.
    + apply Hthrow. vm_compute. reflexivity.
  - destruct (applyDelta_data_outcome two_records [mkEdit 8 7 (Some [9])])
      as (_ & _ & Hret).
    + unfold len_of. simpl. lia.
    + split; [unfold len_of; simpl; lia|].
      constructor; [|constructor]. unfold inserted, len_of. simpl. lia.
    + exact Hret.
Defined.

(** What the loop wrote ends with the untouched suffix of the
    source. *)
Lemma written_suffix (srcData : list Z) (es : list SemanticTokensEdit)
    (pos : Z) (e : SemanticTokensEdit) :
  0 <= pos ->
  contract pos es (len srcData) ->
  last es = Some e ->
  exists pre,
    (written srcData es).2
    = pre ++ drop (Z.to_nat (start e + deleteCount e)) srcData.
Proof.
  revert pos. induction es as [|e0 es IH]; intros pos Hpos Hc Hlast; [done|].
  simpl in Hc. destruct Hc as (Hs & Hd & Hc).
  destruct es as [|e1 es].
  - injection Hlast as ->. simpl in *. exists (inserted e).
    rewrite app_nil_r, take_ge; [done|].
    rewrite length_drop. unfold len_of in *. lia.
  - destruct (IH (start e0 + deleteCount e0)) as [pre Hpre]; [lia|done|done|].
    simpl written in *.
    destruct (written srcData es) as [s' t']. simpl in *.
    eexists. rewrite Hpre, !app_assoc. reflexivity.
Qed.

(** X3. Under the contract, patching leaves the integers before the
    first edit where they were, and moves the integers after the last
    edit's deleted span by the change of length, unchanged. *)
Theorem applyDelta_keeps_outside (srcData : list Z)
    (first last_edit : SemanticTokensEdit) (es : list SemanticTokensEdit) :
  Forall u32 srcData ->
  Forall edit_u32 (first :: es) ->
  contract 0 (first :: es) (len srcData) ->
  last (first :: es) = Some last_edit ->
  exists out,
    applyDelta_data srcData (first :: es) = Ok out
    /\ (forall i : nat, Z.of_nat i < start first -> out !! i = srcData !! i)
    /\ (forall i : nat,
          start last_edit + deleteCount last_edit <= Z.of_nat i ->
          out !! Z.to_nat (Z.of_nat i + length_change (first :: es))
          = srcData !! i).
Proof.
  intros Hsrc Hes Hc Hlast.
  pose proof (applyDelta_data_contract _ _ Hsrc Hes Hc) as Hdata.
  pose proof (applyDelta_data_length _ _ _ Hdata) as Hlen.
  exists (apply_spec srcData (first :: es)). split; [done|].
  destruct (written_bounds srcData (first :: es) 0) as [Hb Hl]; [lia|done|].
  destruct (written_suffix srcData (first :: es) 0 last_edit)
    as [pre Hpre]; [lia|done|done|].
  rewrite (apply_spec_written srcData (first :: es) 0) in * by (done || lia).
  assert (Hs : (written srcData (first :: es)).1 = start first).
  { simpl. by destruct (written srcData es). }
  rewrite Hs in *. clear Hs.
  assert (Hend : 0 <= start last_edit + deleteCount last_edit <= len srcData).
  { assert (Hgen : forall l pos, 0 <= pos ->
              contract pos l (len srcData) -> last l = Some last_edit ->
              0 <= start last_edit + deleteCount last_edit <= len srcData).
    { induction l as [|x l IHl]; intros pos Hpos Hcl Hll; [done|].
      simpl in Hcl. destruct Hcl as (? & ? & Hcl).
      destruct l as [|y l].
      - injection Hll as ->. simpl in Hcl. lia.
      - apply (IHl (start x + deleteCount x)); [lia|done|done]. }
    by apply (Hgen (first :: es) 0). }
  simpl in Hc. destruct Hc as (Hs0 & _ & _).
  split.
  - intros i Hi. rewrite lookup_app_l by (rewrite length_take; len_lia).
    apply lookup_take_lt. lia.
  - intros i Hi. rewrite Hpre in *. rewrite app_assoc in *.
    set (head := take (Z.to_nat (start first)) srcData ++ pre) in *.
    assert (Hhead : len head
              = len srcData + length_change (first :: es)
                - (len srcData - (start last_edit + deleteCount last_edit))).
    { unfold len_of in *. rewrite length_app, length_drop in Hlen. lia. }
    replace (Z.to_nat (Z.of_nat i + length_change (first :: es)))
      with (length head
            + (i - Z.to_nat (start last_edit + deleteCount last_edit)))%nat
      by (unfold len_of in *; lia).
    rewrite lookup_app_r by lia.
    replace (length head
             + (i - Z.to_nat (start last_edit + deleteCount last_edit))
             - length head)%nat
      with (i - Z.to_nat (start last_edit + deleteCount last_edit))%nat by lia.
    rewrite lookup_drop. f_equal. lia.
Qed.

Lemma applyDelta_keeps_outside_witness :
  exists out,
    applyDelta_data two_records [replace_second] = Ok out
    /\ (forall i : nat, Z.of_nat i < 5 -> out !! i = two_records !! i)
    /\ (forall i : nat,
          5 + 5 <= Z.of_nat i ->
          out !! Z.to_nat (Z.of_nat i + 0) = two_records !! i).
Proof.
  apply (applyDelta_keeps_outside two_records replace_second replace_second []).
  - repeat constructor; unfold u32; lia.
  - repeat constructor; unfold u32; lia.
  - simpl. unfold len_of. simpl. lia.
  - reflexivity.
Defined.

(** ** The entry points, on every path *)

(** A call that returns tokens went through
    [provideDocumentSemanticTokens], on the payload itself or on the
    patched tokens just allocated. *)
Lemma entry_point_paths
    (visibleTextEditors : list TextEditor) (st st' : state)
    (doc : TextDocument) (previousResultId : string)
    (tokens r : SemanticTokens + SemanticTokensEdits) :
  provideDocumentSemanticTokensEdits visibleTextEditors st doc
    previousResultId tokens = Ok (st', r) ->
  (exists delta,
     tokens = inr delta /\ r = inr delta /\ st' = st
     /\ forall previousTokens,
          lastTokens st !! doc = Some previousTokens ->
          resultId previousTokens <> Some previousResultId)
  \/ (exists h1 cached,
        (tokens = inl cached /\ h1 = heap st
         \/ exists delta previousTokens patched,
              tokens = inr delta
              /\ lastTokens st !! doc = Some previousTokens
              /\ resultId previousTokens = Some previousResultId
              /\ applyDelta_data (deref (heap st) (data previousTokens))
                                 (edits delta) = Ok patched
              /\ h1 = <[fresh (dom (heap st)) := patched]> (heap st)
              /\ cached = mkTokens (edits_resultId delta)
                                   (fresh (dom (heap st))))
        /\ st' = (provideDocumentSemanticTokens visibleTextEditors
                    (with_heap st h1) doc cached).1
        /\ r = inl (provideDocumentSemanticTokens visibleTextEditors
                      (with_heap st h1) doc cached).2).
Proof.
  destruct tokens as [full | delta]; cbn [provideDocumentSemanticTokensEdits].
  - intros H. right. exists (heap st), full.
    split; [by left|].
    assert (Hst : with_heap st (heap st) = st) by (by destruct st).
    rewrite Hst.
    destruct (provideDocumentSemanticTokens _ _ _ _) as [st1 out].
    by injection H as <- <-.
  - destruct (lastTokens st !! doc) as [previousTokens|] eqn:Hprev.
    + destruct (decide _) as [Hid|Hid].
      * unfold applyDelta.
        destruct (applyDelta_data _ _) as [patched|] eqn:Hdata; [|done].
        cbn [alloc]. intros H. right.
        exists (<[fresh (dom (heap st)) := patched]> (heap st)),
               (mkTokens (edits_resultId delta) (fresh (dom (heap st)))).
        split; [right; by exists delta, previousTokens, patched|].
        destruct (provideDocumentSemanticTokens _ _ _ _) as [st1 out].
        by injection H as <- <-.
      * intros [= <- <-]. left. exists delta. repeat split.
        by intros ? [= <-].
    + intros [= <- <-]. left. by exists delta.
Qed.

Lemma replaceInactiveRanges_data_u32 (s r : JS.value) (src : list Z) :
  Forall u32 src -> Forall u32 (replaceInactiveRanges_data s r src).
Proof.
  intros Hsrc. apply Forall_lookup. intros i x.
  rewrite replaceInactiveRanges_data_lookup.
  destruct (src !! i) as [y|] eqn:Hy; [|done]. intros [= <-].
  unfold remapped. destruct (_ && _); [apply ToUint32_is_u32|].
  by eapply Forall_lookup_1.
Qed.

(** X4. Every entry point keeps the heap well-typed: if all arrays hold
    unsigned 32-bit integers before the call, they do afterwards, the
    patched array and the forwarded copy included. *)
Theorem heap_stays_u32
    (visibleTextEditors : list TextEditor) (st st' : state)
    (doc : TextDocument) (previousResultId : string)
    (tokens r : SemanticTokens + SemanticTokensEdits) :
  heap_u32 (heap st) ->
  provideDocumentSemanticTokensEdits visibleTextEditors st doc
    previousResultId tokens = Ok (st', r) ->
  heap_u32 (heap st').
Proof.
  intros Hinv H.
  destruct (entry_point_paths _ _ _ _ _ _ _ H)
    as [(delta & _ & _ & -> & _) | (h1 & cached & Hpath & -> & _)]; [done|].
  assert (H1 : heap_u32 h1).
  { destruct Hpath as [[_ ->] | (delta & prev & patched & _ & _ & _ & Hp & -> & _)];
      [done|].
    intros l a. rewrite lookup_insert. destruct (decide _).
    - intros [= <-]. by apply applyDelta_data_u32 in Hp.
    - apply Hinv. }
  rewrite provideDocumentSemanticTokens_unfold. cbn [fst heap].
  unfold with_heap. cbn [heap inactiveCodeTokenTypeIndex
                         inactiveCodeTokenTypeReplaceIndex].
  intros l a. rewrite lookup_insert. destruct (decide _).
  - intros [= <-]. apply replaceInactiveRanges_data_u32.
    unfold deref. destruct (h1 !! data cached) as [b|] eqn:Hb; simpl.
    + by apply (H1 _ _ Hb).
    + constructor.
  - apply H1.
Qed.

Lemma heap_stays_u32_witness : heap_u32 (heap (after_first two_records)).
Proof.
  apply (heap_stays_u32 [] (session two_records) (after_first two_records)
           some_document "r0" (inl first_tokens)
           (inl (provideDocumentSemanticTokens [] (session two_records)
                   some_document first_tokens).2)).
  - intros l a. unfold session, initialize, initial_state. cbn [heap].
    cbn [semanticTokensProvider example_capabilities heap].
    rewrite lookup_singleton. destruct (decide _); [|done].
    intros [= <-]. repeat constructor; unfold u32; lia.
  - reflexivity.
Defined.

(** X5. A call never touches what belongs to other documents, the two
    negotiated indices, or an array that already exists: stored tokens
    and ranges of any other document, both indices and the content of
    every allocated array are the same after the call. *)
Theorem call_is_local
    (visibleTextEditors : list TextEditor) (st st' : state)
    (doc : TextDocument) (previousResultId : string)
    (tokens r : SemanticTokens + SemanticTokensEdits) :
  provideDocumentSemanticTokensEdits visibleTextEditors st doc
    previousResultId tokens = Ok (st', r) ->
  inactiveCodeTokenTypeIndex st' = inactiveCodeTokenTypeIndex st
  /\ inactiveCodeTokenTypeReplaceIndex st'
     = inactiveCodeTokenTypeReplaceIndex st
  /\ (forall other,
        other <> doc ->
        lastTokens st' !! other = lastTokens st !! other
        /\ lastInactiveRanges st' !! other = lastInactiveRanges st !! other)
  /\ (forall l a, heap st !! l = Some a -> heap st' !! l = Some a).
Proof.
  intros H.
  destruct (entry_point_paths _ _ _ _ _ _ _ H)
    as [(delta & _ & _ & -> & _) | (h1 & cached & Hpath & -> & _)]; [done|].
  rewrite provideDocumentSemanticTokens_unfold.
  unfold with_heap.
  cbn [fst heap lastTokens lastInactiveRanges inactiveCodeTokenTypeIndex
       inactiveCodeTokenTypeReplaceIndex].
  repeat split; try done.
  - by rewrite lookup_insert_ne.
  - by rewrite lookup_insert_ne.
  - intros l a Hl.
    assert (H1 : h1 !! l = Some a).
    { destruct Hpath as [[_ ->] | (? & ? & patched & _ & _ & _ & _ & -> & _)];
        [done|].
      rewrite lookup_insert_ne; [done|]. by apply (fresh_differs _ _ a). }
    rewrite lookup_insert_ne; [done|]. by apply (fresh_differs _ _ a).
Qed.

Lemma call_is_local_witness :
  inactiveCodeTokenTypeIndex (after_first two_records) = JS.Num 0
  /\ heap (after_first two_records) !! 1%positive = Some two_records.
Proof.
  destruct (call_is_local [] (session two_records) (after_first two_records)
              some_document "r0" (inl first_tokens)
              (inl (provideDocumentSemanticTokens [] (session two_records)
                      some_document first_tokens).2) eq_refl)
    as (Hs & _ & _ & Hheap).
  split; [exact Hs|]. apply Hheap. reflexivity.
Defined.

(** The identifier a payload announces. *)
Lemma returned_tokens_identifier
    (visibleTextEditors : list TextEditor) (st st' : state)
    (doc : TextDocument) (previousResultId : string)
    (tokens : SemanticTokens + SemanticTokensEdits) (out : SemanticTokens) :
  provideDocumentSemanticTokensEdits visibleTextEditors st doc
    previousResultId tokens = Ok (st', inl out) ->
  exists cached,
    lastTokens st' !! doc = Some cached
    /\ resultId cached = resultId out
    /\ resultId out
       = match tokens with
         | inl full => resultId full
         | inr delta => edits_resultId delta
         end.
Proof.
  intros H.
  destruct (entry_point_paths _ _ _ _ _ _ _ H)
    as [(delta & _ & [=] & _) | (h1 & cached & Hpath & -> & [= ->])].
  rewrite provideDocumentSemanticTokens_unfold.
  cbn [fst snd lastTokens resultId]. exists cached.
  split; [apply lookup_insert_eq|]. split; [done|].
  by destruct Hpath as [[-> _] | (? & ? & ? & -> & _ & _ & _ & _ & ->)].
Qed.

(** X6. After a call that returned tokens, the document is cached
    under the identifier of the payload just processed, which is also
    the identifier forwarded.  A later delta based on any other
    identifier is returned as it came with the state untouched; a later
    delta based on that identifier is never returned unresolved. *)
Theorem identifiers_chain
    (visibleTextEditors : list TextEditor) (st st' : state)
    (doc : TextDocument) (previousResultId : string)
    (tokens : SemanticTokens + SemanticTokensEdits) (out : SemanticTokens) :
  provideDocumentSemanticTokensEdits visibleTextEditors st doc
    previousResultId tokens = Ok (st', inl out) ->
  resultId out
  = match tokens with
    | inl full => resultId full
    | inr delta => edits_resultId delta
    end
  /\ (forall editors nextBase next,
        resultId out <> Some nextBase ->
        provideDocumentSemanticTokensEdits editors st' doc nextBase (inr next)
        = Ok (st', inr next))
  /\ (forall editors nextBase next st'' r,
        resultId out = Some nextBase ->
        provideDocumentSemanticTokensEdits editors st' doc nextBase (inr next)
        = Ok (st'', r) ->
        exists out', r = inl out').
Proof.
  intros H.
  destruct (returned_tokens_identifier _ _ _ _ _ _ _ H)
    as (cached & Hcached & Hid & Hout).
  split; [done|]. split.
  - intros editors nextBase next Hne.
    cbn [provideDocumentSemanticTokensEdits]. rewrite Hcached.
    destruct (decide _) as [E|]; [|done]. congruence.
  - intros editors nextBase next st'' r Hsame.
    cbn [provideDocumentSemanticTokensEdits]. rewrite Hcached.
    destruct (decide _) as [|E]; [|congruence].
    destruct (applyDelta _ _ _) as [[st1 patched]|]; [|done].
    destruct (provideDocumentSemanticTokens _ _ _ _) as [st2 out'].
    intros [= _ <-]. by exists out'.
Qed.

Lemma identifiers_chain_witness :
  provideDocumentSemanticTokensEdits [] (after_first two_records)
    some_document "r0" (inr (mkEdits (Some "r2") []))
  = Ok (after_first two_records, inr (mkEdits (Some "r2") [])).
Proof.
  destruct (identifiers_chain [] (session two_records)
              (after_first two_records) some_document "r0"
              (inl first_tokens)
              (provideDocumentSemanticTokens [] (session two_records)
                 some_document first_tokens).2 eq_refl)
    as (_ & Hstale & _).
  apply Hstale. discriminate.
Defined.

(** X7. A delta whose base resolves, with edits satisfying the
    contract, is processed exactly as a full transmission of the patched
    stream under the delta's identifier: same cache entry, same ranges,
    same decorations, same forwarded copy. *)
Theorem resolved_delta_is_full_transmission
    (visibleTextEditors : list TextEditor) (st : state) (doc : TextDocument)
    (previousResultId : string) (previousTokens : SemanticTokens)
    (delta : SemanticTokensEdits) (previousBuffer : list Z) :
  lastTokens st !! doc = Some previousTokens ->
  resultId previousTokens = Some previousResultId ->
  heap st !! data previousTokens = Some previousBuffer ->
  Forall u32 previousBuffer ->
  Forall edit_u32 (edits delta) ->
  contract 0 (edits delta) (len previousBuffer) ->
  let patched := mkTokens (edits_resultId delta) (fresh (dom (heap st))) in
  let st1 :=
    with_heap st
      (<[fresh (dom (heap st)) := apply_spec previousBuffer (edits delta)]>
         (heap st)) in
  provideDocumentSemanticTokensEdits visibleTextEditors st doc
    previousResultId (inr delta)
  = provideDocumentSemanticTokensEdits visibleTextEditors st1 doc
      previousResultId (inl patched)
  /\ lastInactiveRanges
       (provideDocumentSemanticTokens visibleTextEditors st1 doc patched).1
       !! doc
     = Some (computeInactiveRanges (inactiveCodeTokenTypeIndex st)
               (apply_spec previousBuffer (edits delta))).
Proof.
  intros Hprev Hid Hbuf Hu32 Hedits Hc patched st1.
  split.
  - cbn [provideDocumentSemanticTokensEdits]. rewrite Hprev.
    rewrite decide_True by done.
    unfold applyDelta. rewrite (deref_Some _ _ _ Hbuf).
    by rewrite (applyDelta_data_contract _ _ Hu32 Hedits Hc).
  - rewrite provideDocumentSemanticTokens_unfold.
    cbn [fst lastInactiveRanges]. rewrite lookup_insert_eq.
    subst st1 patched. unfold with_heap, deref.
    cbn [heap data inactiveCodeTokenTypeIndex].
    by rewrite lookup_insert_eq.
Qed.

Lemma resolved_delta_is_full_transmission_witness :
  exists st',
    provideDocumentSemanticTokensEdits [] (after_first two_records)
      some_document "r1" (inr (mkEdits (Some "r2") [replace_second]))
    = Ok (st', inl (mkTokens (Some "r2") 4%positive))
    /\ lastInactiveRanges st' !! some_document = Some [].
Proof.
  destruct (resolved_delta_is_full_transmission [] (after_first two_records)
              some_document "r1" first_tokens
              (mkEdits (Some "r2") [replace_second]) two_records)
    as [Heq Hranges].
  - reflexivity.
  - reflexivity.
  - reflexivity.
  - repeat constructor; unfold u32; lia.
  - repeat constructor; unfold u32; lia.
  - simpl. unfold len_of. simpl. lia.
  - eexists. split.
    + rewrite Heq. vm_compute. reflexivity.
    + vm_compute. reflexivity.
Defined.

(** ** Decorations *)

Lemma decorate_visible_snoc (editors : list TextEditor) (e : TextEditor)
    (doc : TextDocument) (ranges : list Range)
    (decos : gmap positive (list Range)) :
  decorate_visible (editors ++ [e]) doc ranges decos
  = if decide (document e = doc)
    then <[editor_id e := ranges]> (decorate_visible editors doc ranges decos)
    else decorate_visible editors doc ranges decos.
Proof. unfold decorate_visible. by rewrite fold_left_app. Qed.

Lemma decorate_visible_shown (editors : list TextEditor)
    (doc : TextDocument) (ranges : list Range)
    (decos : gmap positive (list Range)) (e : TextEditor) :
  e ∈ editors -> document e = doc ->
  decorate_visible editors doc ranges decos !! editor_id e = Some ranges.
Proof.
  induction editors as [|e' editors IH] using rev_ind; intros Hin Hdoc.
  - by apply elem_of_nil in Hin.
  - rewrite decorate_visible_snoc.
    apply elem_of_app in Hin as [Hin | Hin%list_elem_of_singleton].
    + destruct (decide _); [|by apply IH].
      destruct (decide (editor_id e' = editor_id e)) as [->|Hne].
      * apply lookup_insert_eq.
      * rewrite lookup_insert_ne by done. by apply IH.
    + subst e'. rewrite decide_True by done. apply lookup_insert_eq.
Qed.

Lemma decorate_visible_hidden (editors : list TextEditor)
    (doc : TextDocument) (ranges : list Range)
    (decos : gmap positive (list Range)) (k : positive) :
  (forall e, e ∈ editors -> editor_id e = k -> document e <> doc) ->
  decorate_visible editors doc ranges decos !! k = decos !! k.
Proof.
  induction editors as [|e' editors IH] using rev_ind; intros Hk; [done|].
  rewrite decorate_visible_snoc.
  assert (Hrest : decorate_visible editors doc ranges decos !! k = decos !! k).
  { apply IH. intros e He. apply Hk, elem_of_app. by left. }
  destruct (decide _) as [Hdoc|]; [|done].
  rewrite lookup_insert_ne; [done|].
  intros Hid. apply (Hk e'); [|done|done].
  apply elem_of_app. right. by apply list_elem_of_singleton.
Qed.

(** X8. A transmission for a document decorates every visible editor
    that shows the document with the ranges it stores for the document,
    and leaves the decorations of every editor that does not show it as
    they were. *)
Theorem transmission_decorates_visible
    (visibleTextEditors : list TextEditor) (st : state) (doc : TextDocument)
    (tokens : SemanticTokens) :
  let st' :=
    (provideDocumentSemanticTokens visibleTextEditors st doc tokens).1 in
  (forall e,
     e ∈ visibleTextEditors -> document e = doc ->
     decorations st' !! editor_id e = lastInactiveRanges st' !! doc)
  /\ (forall k,
        (forall e, e ∈ visibleTextEditors -> editor_id e = k ->
                   document e <> doc) ->
        decorations st' !! k = decorations st !! k).
Proof.
  intros st'. subst st'. rewrite provideDocumentSemanticTokens_unfold.
  cbn [fst decorations lastInactiveRanges]. split.
  - intros e He Hdoc. rewrite lookup_insert_eq.
    by apply decorate_visible_shown.
  - intros k Hk. by apply decorate_visible_hidden.
Qed.

Lemma reapply_kept (ranges : gmap positive (list Range))
    (editors : list TextEditor) (decos : gmap positive (list Range))
    (k : positive) :
  (forall x, x ∈ editors -> editor_id x = k ->
             ranges !! document x = None) ->
  fold_left (reapply ranges) editors decos !! k = decos !! k.
Proof.
  induction editors as [|e' editors IH] using rev_ind; intros Hk; [done|].
  rewrite fold_left_app. cbn [fold_left].
  assert (Hrest : fold_left (reapply ranges) editors decos !! k = decos !! k).
  { apply IH. intros x Hx. apply Hk, elem_of_app. by left. }
  unfold reapply at 1.
  destruct (ranges !! document e') as [r|] eqn:Hr; [|done].
  rewrite lookup_insert_ne; [done|]. intros Hid.
  rewrite (Hk e') in Hr; [done| |done].
  apply elem_of_app. right. by apply list_elem_of_singleton.
Qed.

Lemma reapply_set (ranges : gmap positive (list Range))
    (editors : list TextEditor) (decos : gmap positive (list Range))
    (k : positive) (r : list Range) :
  (forall x, x ∈ editors -> editor_id x = k ->
             ranges !! document x = Some r) ->
  (exists x, x ∈ editors /\ editor_id x = k) ->
  fold_left (reapply ranges) editors decos !! k = Some r.
Proof.
  induction editors as [|e' editors IH] using rev_ind;
    intros Hk (x & Hx & Hid).
  - by apply elem_of_nil in Hx.
  - rewrite fold_left_app. cbn [fold_left].
    assert (Hlast : e' ∈ editors ++ [e']).
    { apply elem_of_app. right. by apply list_elem_of_singleton. }
    destruct (decide (editor_id e' = k)) as [Hk'|Hne].
    + unfold reapply at 1. rewrite (Hk e' Hlast Hk'), Hk'.
      apply lookup_insert_eq.
    + assert (Hrest : fold_left (reapply ranges) editors decos !! k = Some r).
      { apply IH.
        - intros y Hy. apply Hk, elem_of_app. by left.
        - exists x. split; [|done].
          apply elem_of_app in Hx as [Hx | Hx%list_elem_of_singleton];
            [done | by subst x]. }
      unfold reapply at 1. destruct (ranges !! document e'); [|done].
      by rewrite lookup_insert_ne.
Qed.

Lemma applyInactiveRegions_unfold (st : state) (editors : list TextEditor) :
  applyInactiveRegions st editors
  = mkState (inactiveCodeTokenTypeIndex st)
            (inactiveCodeTokenTypeReplaceIndex st)
            (heap st) (lastTokens st) (lastInactiveRanges st)
            (fold_left (reapply (lastInactiveRanges st)) editors
                       (decorations st)).
Proof. reflexivity. Qed.

(** X9. On a visibility change, every listed editor whose document has
    cached ranges is decorated with exactly those ranges; an editor
    whose document has none, and every editor not listed, keeps its
    decorations; tokens, ranges and arrays are not touched. *)
Theorem applyInactiveRegions_reapplies (st : state)
    (editors : list TextEditor) :
  one_document_each editors ->
  let st' := applyInactiveRegions st editors in
  (forall e,
     e ∈ editors ->
     decorations st' !! editor_id e
     = match lastInactiveRanges st !! document e with
       | Some inactiveRanges => Some inactiveRanges
       | None => decorations st !! editor_id e
       end)
  /\ (forall k,
        (forall e, e ∈ editors -> editor_id e <> k) ->
        decorations st' !! k = decorations st !! k)
  /\ lastTokens st' = lastTokens st
  /\ lastInactiveRanges st' = lastInactiveRanges st
  /\ heap st' = heap st.
Proof.
  intros Hone st'. subst st'. rewrite applyInactiveRegions_unfold.
  cbn [decorations lastTokens lastInactiveRanges heap].
  repeat split; try done.
  - intros e He.
    destruct (lastInactiveRanges st !! document e) as [r|] eqn:Hr.
    + apply reapply_set; [|by exists e].
      intros x Hx Hid. by rewrite (Hone x e Hx He Hid).
    + apply reapply_kept.
      intros x Hx Hid. by rewrite (Hone x e Hx He Hid).
  - intros k Hk. apply reapply_kept.
    intros x Hx Hid. by destruct (Hk x Hx).
Qed.

Lemma applyInactiveRegions_reapplies_witness :
  decorations
    (applyInactiveRegions (after_first one_inactive)
       [mkEditor 3%positive some_document]) !! 3%positive
  = Some [mkRange (mkPosition (JS.Num 2) (JS.Num 4))
                  (mkPosition (JS.Num 2) (JS.Num 10))].
Proof.
  destruct (applyInactiveRegions_reapplies (after_first one_inactive)
              [mkEditor 3%positive some_document]) as (Hshown & _).
  - intros e1 e2 H1%list_elem_of_singleton H2%list_elem_of_singleton _.
    by subst.
  - apply (Hshown (mkEditor 3%positive some_document)).
    by apply list_elem_of_singleton.
Defined.

(** X10. After a transmission for a document, a visibility change for
    an editor showing it decorates the editor with the ranges extracted
    from that transmission; nothing is computed again. *)
Theorem visibility_change_after_transmission
    (visibleTextEditors editors : list TextEditor) (st : state)
    (doc : TextDocument) (tokens : SemanticTokens) (buffer : list Z)
    (e : TextEditor) :
  heap st !! data tokens = Some buffer ->
  one_document_each editors ->
  e ∈ editors ->
  document e = doc ->
  decorations
    (applyInactiveRegions
       (provideDocumentSemanticTokens visibleTextEditors st doc tokens).1
       editors) !! editor_id e
  = Some (computeInactiveRanges (inactiveCodeTokenTypeIndex st) buffer).
Proof.
  intros Hbuf Hone He Hdoc.
  rewrite applyInactiveRegions_unfold, provideDocumentSemanticTokens_unfold.
  cbn [fst decorations lastInactiveRanges].
  rewrite (deref_Some _ _ _ Hbuf).
  apply reapply_set; [|by exists e].
  intros x Hx Hid. rewrite (Hone x e Hx He Hid), Hdoc.
  apply lookup_insert_eq.
Qed.

Lemma visibility_change_after_transmission_witness :
  decorations
    (applyInactiveRegions
       (provideDocumentSemanticTokens [] (session one_inactive)
          some_document first_tokens).1
       [mkEditor 3%positive some_document]) !! 3%positive
  = Some (computeInactiveRanges (JS.Num 0) one_inactive).
Proof.
  apply (visibility_change_after_transmission [] _ (session one_inactive)
           some_document first_tokens one_inactive
           (mkEditor 3%positive some_document)).
  - reflexivity.
  - intros e1 e2 H1%list_elem_of_singleton H2%list_elem_of_singleton _.
    by subst.
  - by apply list_elem_of_singleton.
  - reflexivity.
Defined.

(** ** What extraction reads *)

Lemma load_insert_other (a : list Z) (i : nat) (v : Z) (j : Z) :
  j <> Z.of_nat i -> load (<[i := v]> a) j = load a j.
Proof.
  intros Hne. unfold load. destruct (0 <=? j) eqn:Hj; [|done].
  rewrite list_lookup_insert_ne; [done|]. lia.
Qed.

(** X11. Extraction never looks at the modifier bits: overwriting the
    fifth integer of any record leaves the extracted ranges the same,
    for every stream and every sentinel. *)
Theorem computeInactiveRanges_ignores_modifiers (sentinel : JS.value)
    (buffer : list Z) (i : nat) (v : Z) :
  (i mod 5 = 4)%nat ->
  computeInactiveRanges sentinel (<[i := v]> buffer)
  = computeInactiveRanges sentinel buffer.
Proof.
  intros Hi. unfold computeInactiveRanges, len_of.
  rewrite length_insert. f_equal.
  apply fold_left_pointwise. intros [[l c] rs] k.
  unfold computeInactiveRanges_step.
  assert (Hz : Z.of_nat i mod 5 = 4).
  { change 5 with (Z.of_nat 5). rewrite <- (Nat2Z.inj_mod i 5), Hi. done. }
  rewrite !load_insert_other; [done|..]; intros E;
    rewrite <- E in Hz; Z.div_mod_to_equations; lia.
Qed.

Lemma computeInactiveRanges_ignores_modifiers_witness :
  computeInactiveRanges (JS.Num 0) (<[4%nat := 77]> one_inactive)
  = computeInactiveRanges (JS.Num 0) one_inactive.
Proof.
  apply (computeInactiveRanges_ignores_modifiers (JS.Num 0) one_inactive 4 77).
  reflexivity.
Defined.

Lemma computeInactiveRanges_step_length (sentinel : JS.value)
    (data : list Z) (l : list nat) (acc : JS.value * JS.value * list Range) :
  (length (fold_left (computeInactiveRanges_step sentinel data) l acc).2
   <= length acc.2 + length l)%nat.
Proof.
  revert acc. induction l as [|k l IH]; intros [[a b] rs]; simpl; [lia|].
  etransitivity; [apply IH|].
  unfold computeInactiveRanges_step.
  destruct (JS.loose_eq _ _); simpl; rewrite ?length_app; simpl; lia.
Qed.

(** X12. Extraction emits at most one range per visited record, a
    trailing partial record included: the list is never longer than
    the length of the stream divided by five, rounded up. *)
Theorem computeInactiveRanges_at_most_one_per_record (sentinel : JS.value)
    (buffer : list Z) :
  5 * len_of (computeInactiveRanges sentinel buffer) <= len buffer + 4.
Proof.
  unfold computeInactiveRanges.
  pose proof (computeInactiveRanges_step_length sentinel buffer
                (seq 0 (tokenIterations (len buffer)))
                (JS.Num 0, JS.Num 0, [])) as H.
  rewrite length_seq in H. simpl in H.
  unfold tokenIterations, len_of in *.
  pose proof (Z.mul_div_le (Z.of_nat (length buffer) + 4) 5).
  pose proof (Z.div_pos (Z.of_nat (length buffer) + 4) 5).
  lia.
Qed.

(** ** Extraction after remapping *)

Lemma load_lookup (a : list Z) (j : nat) :
  load a (Z.of_nat j)
  = match a !! j with Some x => JS.Num x | None => JS.Undefined end.
Proof.
  unfold load. destruct (Z.leb_spec 0 (Z.of_nat j)); [|lia].
  by rewrite Nat2Z.id.
Qed.

Lemma load_remapped (s r : JS.value) (data : list Z) (j : nat) :
  load (replaceInactiveRanges_data s r data) (Z.of_nat j)
  = match data !! j with
    | Some x => JS.Num (remapped s r j x)
    | None => JS.Undefined
    end.
Proof.
  rewrite load_lookup, replaceInactiveRanges_data_lookup.
  by destruct (data !! j).
Qed.

Lemma slot_mod5 (k c : nat) : (c < 5)%nat -> ((5 * k + c) mod 5 = c)%nat.
Proof.
  intros Hc. rewrite Nat.add_comm, Nat.mul_comm, Nat.Div0.mod_add.
  by apply Nat.mod_small.
Qed.

Lemma load_remapped_field (s r : JS.value) (data : list Z) (k c : nat) :
  (c < 3)%nat ->
  load (replaceInactiveRanges_data s r data) (Z.of_nat (5 * k + c))
  = load data (Z.of_nat (5 * k + c)).
Proof.
  intros Hc. rewrite load_remapped, load_lookup.
  destruct (data !! (5 * k + c)%nat) as [x|]; [|done].
  unfold remapped. rewrite slot_mod5 by lia.
  destruct c as [|[|[|c]]]; try done. lia.
Qed.

Lemma load_remapped_typeCode (s r : JS.value) (data : list Z) (k : nat) :
  load (replaceInactiveRanges_data s r data) (Z.of_nat (5 * k + 3))
  = match data !! (5 * k + 3)%nat with
    | Some x =>
        JS.Num (if JS.loose_eq (JS.Num x) s then JS.ToUint32 r else x)
    | None => JS.Undefined
    end.
Proof.
  rewrite load_remapped.
  destruct (data !! (5 * k + 3)%nat) as [x|]; [|done].
  unfold remapped. by rewrite slot_mod5 by lia.
Qed.

Lemma computeInactiveRanges_never_pushes (sentinel : JS.value)
    (data : list Z) (l : list nat) (acc : JS.value * JS.value * list Range) :
  (forall k, JS.loose_eq (load data (5 * Z.of_nat k + 3)) sentinel = false) ->
  (fold_left (computeInactiveRanges_step sentinel data) l acc).2 = acc.2.
Proof.
  intros Hno. revert acc.
  induction l as [|k l IH]; intros [[a b] rs]; [done|].
  simpl fold_left. rewrite IH. unfold computeInactiveRanges_step.
  by rewrite Hno.
Qed.

(** X13. When the replacement index, as stored, differs from the
    sentinel, the remapped stream holds no token of the sentinel type:
    extracting from it with the same sentinel gives no range, whatever
    the length of the stream. *)
Theorem remapped_stream_has_no_sentinel (s : Z) (replaceIndex : JS.value)
    (buffer : list Z) :
  JS.ToUint32 replaceIndex <> s ->
  computeInactiveRanges (JS.Num s)
    (replaceInactiveRanges_data (JS.Num s) replaceIndex buffer)
  = [].
Proof.
  intros Hne. unfold computeInactiveRanges.
  apply computeInactiveRanges_never_pushes. intros k.
  replace (5 * Z.of_nat k + 3) with (Z.of_nat (5 * k + 3)) by lia.
  rewrite load_remapped_typeCode.
  destruct (buffer !! (5 * k + 3)%nat) as [x|]; [|done]. simpl.
  destruct (Z.eqb_spec x s) as [->|Hx].
  - by apply Z.eqb_neq.
  - by apply Z.eqb_neq.
Qed.

Lemma remapped_stream_has_no_sentinel_witness :
  computeInactiveRanges (JS.Num 0)
    (replaceInactiveRanges_data (JS.Num 0) (JS.Num 2) one_inactive)
  = [].
Proof.
  apply (remapped_stream_has_no_sentinel 0 (JS.Num 2) one_inactive).
  discriminate.
Defined.

(** X14. Remapping moves no token and changes no other type: for a
    type that is neither the sentinel nor the stored replacement index,
    extraction gives the same ranges on the remapped stream as on the
    stream received. *)
Theorem remap_keeps_other_types (sentinel replaceIndex : JS.value) (t : Z)
    (buffer : list Z) :
  sentinel <> JS.Num t ->
  JS.ToUint32 replaceIndex <> t ->
  computeInactiveRanges (JS.Num t)
    (replaceInactiveRanges_data sentinel replaceIndex buffer)
  = computeInactiveRanges (JS.Num t) buffer.
Proof.
  intros Hs Hr. unfold computeInactiveRanges, len_of.
  rewrite replaceInactiveRanges_data_length. f_equal.
  apply fold_left_pointwise. intros [[l c] rs] k.
  unfold computeInactiveRanges_step.
  pose proof (load_remapped_field sentinel replaceIndex buffer k 0) as H0.
  pose proof (load_remapped_field sentinel replaceIndex buffer k 1) as H1.
  pose proof (load_remapped_field sentinel replaceIndex buffer k 2) as H2.
  pose proof (load_remapped_typeCode sentinel replaceIndex buffer k) as H3.
  pose proof (load_lookup buffer (5 * k + 3)) as H3'.
  replace (Z.of_nat (5 * k + 0)) with (5 * Z.of_nat k) in H0 by lia.
  replace (Z.of_nat (5 * k + 1)) with (5 * Z.of_nat k + 1) in H1 by lia.
  replace (Z.of_nat (5 * k + 2)) with (5 * Z.of_nat k + 2) in H2 by lia.
  replace (Z.of_nat (5 * k + 3)) with (5 * Z.of_nat k + 3) in H3, H3' by lia.
  rewrite H0, H1, H2, H3, H3' by lia.
  destruct (buffer !! (5 * k + 3)%nat) as [x|]; [|done].
  replace (JS.loose_eq
             (JS.Num (if JS.loose_eq (JS.Num x) sentinel
                      then JS.ToUint32 replaceIndex else x)) (JS.Num t))
    with (JS.loose_eq (JS.Num x) (JS.Num t)); [done|].
  destruct (JS.loose_eq (JS.Num x) sentinel) eqn:Hx; [|done].
  simpl. destruct sentinel as [| |s0]; try done. simpl in Hx.
  apply Z.eqb_eq in Hx as ->.
  rewrite (proj2 (Z.eqb_neq s0 t)) by congruence.
  symmetry. by apply Z.eqb_neq.
Qed.

Lemma remap_keeps_other_types_witness :
  computeInactiveRanges (JS.Num 1)
    (replaceInactiveRanges_data (JS.Num 0) (JS.Num 2) two_records)
  = computeInactiveRanges (JS.Num 1) two_records.
Proof.
  apply (remap_keeps_other_types (JS.Num 0) (JS.Num 2) 1 two_records);
    discriminate.
Defined.

(** X15. If no [typeCode] slot of the stream holds the sentinel, the
    forwarded copy equals the stream received. *)
Theorem remap_without_sentinel_is_copy (sentinel replaceIndex : JS.value)
    (buffer : list Z) :
  (forall i x,
     (i mod 5 = 3)%nat -> buffer !! i = Some x ->
     JS.loose_eq (JS.Num x) sentinel = false) ->
  replaceInactiveRanges_data sentinel replaceIndex buffer = buffer.
Proof.
  intros Hno. apply list_eq. intros i.
  rewrite replaceInactiveRanges_data_lookup.
  destruct (buffer !! i) as [x|] eqn:Hx; [|done]. simpl. f_equal.
  unfold remapped. destruct (Nat.eqb_spec (i mod 5) 3) as [Hi|]; [|done].
  by rewrite (Hno i x Hi Hx).
Qed.

Lemma remap_without_sentinel_is_copy_witness :
  replaceInactiveRanges_data (JS.Num 0) (JS.Num 2) two_records = two_records.
Proof.
  apply (remap_without_sentinel_is_copy (JS.Num 0) (JS.Num 2) two_records).
  intros i x Hi Hx.
  do 10 (destruct i as [|i];
         [first [discriminate Hi | injection Hx as <-; reflexivity]|]).
  discriminate Hx.
Defined.

(** ** Ranges the host accepts *)

Lemma records_fields_nonneg (data : list Z) :
  Forall u32 data ->
  Forall (fun r => 0 <= deltaLine r /\ 0 <= deltaStartColumn r
                   /\ 0 <= length_ r)
         (records data).
Proof.
  induction data as [data Hshort | a b c d e rest IH] using list_ind5.
  - intros _.
    by destruct data as [|? [|? [|? [|? [|? ?]]]]];
      [..| simpl in Hshort; lia].
  - intros H. do 5 (apply Forall_cons in H as [? H]).
    unfold u32 in *. simpl. constructor; [simpl; lia | by apply IH].
Qed.

Lemma decode_from_nonneg (rs : list TokenRecord) (l c : Z) :
  0 <= l -> 0 <= c ->
  Forall (fun r => 0 <= deltaLine r /\ 0 <= deltaStartColumn r
                   /\ 0 <= length_ r) rs ->
  Forall (fun a => 0 <= startLine a /\ 0 <= startColumn a
                   /\ 0 <= abs_length a)
         (decode_from l c rs).
Proof.
  intros Hl Hc Hrs. revert l c Hl Hc.
  induction Hrs as [|r rs (Hdl & Hdc & Hlen) _ IH]; intros l c Hl Hc; simpl;
    [constructor|].
  assert (Hcol : 0 <= (if deltaLine r =? 0 then c + deltaStartColumn r
                       else deltaStartColumn r))
    by (destruct (_ =? 0); lia).
  constructor; [simpl; lia|]. apply IH; [lia | done].
Qed.

Lemma extract_wf (abs : list AbsoluteRecord) (s : Z) :
  Forall (fun a => 0 <= startLine a /\ 0 <= startColumn a
                   /\ 0 <= abs_length a) abs ->
  Forall range_wf (extract abs s).
Proof.
  unfold extract. induction 1 as [|a abs (Hl & Hc & Hlen) _ IH];
    [constructor|].
  rewrite filter_cons. destruct (decide _); [|done].
  simpl. constructor; [|done].
  exists (startLine a), (startColumn a), (startColumn a + abs_length a).
  split; [done | lia].
Qed.

(** X16. On a stream of whole records holding unsigned 32-bit integers,
    every extracted range has numeric, non-negative coordinates, stays
    on one line and ends at or after its start. *)
Theorem computeInactiveRanges_well_formed (s : Z) (buffer : list Z) :
  len buffer mod 5 = 0 ->
  Forall u32 buffer ->
  Forall range_wf (computeInactiveRanges (JS.Num s) buffer).
Proof.
  intros Hmod Hbuf. rewrite computeInactiveRanges_is_extract by done.
  apply extract_wf. unfold decode.
  apply decode_from_nonneg; [lia | lia |].
  by apply records_fields_nonneg.
Qed.

Lemma computeInactiveRanges_well_formed_witness :
  Forall range_wf (computeInactiveRanges (JS.Num 0) one_inactive).
Proof.
  apply (computeInactiveRanges_well_formed 0 one_inactive).
  - reflexivity.
  - repeat constructor; unfold u32; lia.
Defined.

(** ** Negotiating twice *)

Lemma scan_legend_again (tokenTypes : list string) (index : JS.value) :
  scan_legend tokenTypes (scan_legend tokenTypes index)
  = scan_legend tokenTypes index.
Proof.
  destruct (scan_legend_result tokenTypes index)
    as [[Hr Hnone] | (i & Hi & Hr & Hc & Hlast)].
  - by rewrite Hr, Hr.
  - rewrite Hr.
    destruct (scan_legend_result tokenTypes (JS.Num (Z.of_nat i)))
      as [[Hr' _] | (i' & _ & Hr' & Hc' & Hlast')]; [done|].
    rewrite Hr'. do 2 f_equal.
    destruct (Nat.lt_trichotomy i i') as [Hlt | [-> | Hgt]]; [|done|].
    + by destruct (Hlast i' Hlt).
    + by destruct (Hlast' i Hgt).
Qed.

(** X17. Negotiating again with the same capabilities changes nothing:
    [initialize] is idempotent. *)
Theorem initialize_idempotent (st : state)
    (capabilities : ServerCapabilities) :
  initialize (initialize st capabilities) capabilities
  = initialize st capabilities.
Proof.
  unfold initialize.
  destruct (semanticTokensProvider capabilities) as [legend|] eqn:Hcap;
    rewrite ?Hcap; [|done].
  cbn [inactiveCodeTokenTypeIndex heap lastTokens lastInactiveRanges
       decorations].
  by rewrite scan_legend_again.
Qed.

(** ** Failure *)

Lemma applyDelta_data_throws (srcData : list Z)
    (es : list SemanticTokensEdit) (e : exn) :
  applyDelta_data srcData es = Throw e ->
  len srcData + length_change es < 0.
Proof.
  unfold applyDelta_data. rewrite deltaLength_of_length_change.
  destruct (Z.ltb_spec (len srcData + length_change es) 0); [done|].
  by destruct (fold_left _ _ _) as [[? ?] ?].
Qed.

Lemma applyDelta_data_negative (srcData : list Z)
    (es : list SemanticTokensEdit) :
  len srcData + length_change es < 0 ->
  applyDelta_data srcData es = Throw RangeError.
Proof.
  intros Hneg. unfold applyDelta_data.
  rewrite deltaLength_of_length_change.
  by destruct (Z.ltb_spec (len srcData + length_change es) 0); [|lia].
Qed.

(** X18. Only a delta whose base resolves can fail: a full payload and
    an unresolved delta always return.  A delta of the size the
    protocol allows whose base resolves and whose announced length is
    negative fails with [RangeError]. *)
Theorem only_resolved_delta_fails
    (visibleTextEditors : list TextEditor) (st : state) (doc : TextDocument)
    (previousResultId : string)
    (tokens : SemanticTokens + SemanticTokensEdits) :
  (forall e,
     provideDocumentSemanticTokensEdits visibleTextEditors st doc
       previousResultId tokens = Throw e ->
     exists delta previousTokens,
       tokens = inr delta
       /\ lastTokens st !! doc = Some previousTokens
       /\ resultId previousTokens = Some previousResultId)
  /\ (forall delta previousTokens,
        tokens = inr delta ->
        lastTokens st !! doc = Some previousTokens ->
        resultId previousTokens = Some previousResultId ->
        len (deref (heap st) (data previousTokens)) <= 4294967296 ->
        bounded_edits (edits delta) ->
        len (deref (heap st) (data previousTokens))
        + length_change (edits delta) < 0 ->
        provideDocumentSemanticTokensEdits visibleTextEditors st doc
          previousResultId tokens = Throw RangeError).
Proof.
  split.
  - intros e. destruct tokens as [full | delta];
      cbn [provideDocumentSemanticTokensEdits].
    + by destruct (provideDocumentSemanticTokens _ _ _ _).
    + destruct (lastTokens st !! doc) as [previousTokens|] eqn:Hprev; [|done].
      destruct (decide _) as [Hid|]; [|done].
      intros _. by exists delta, previousTokens.
  - intros delta previousTokens -> Hprev Hid _ _ Hneg.
    cbn [provideDocumentSemanticTokensEdits]. rewrite Hprev.
    rewrite decide_True by done. unfold applyDelta.
    by rewrite applyDelta_data_negative.
Qed.

(** ** Extraction from any stream *)

(** X19. With a numeric sentinel, on a stream of at most ten million
    unsigned 32-bit integers of any length, extraction is extraction
    from its whole records; a trailing partial record counts exactly
    when it has its [typeCode], that is when only its modifier bits are
    missing, and is ignored otherwise.  Within the bound every sum
    formed is at most 2^53, so the exact sums are the doubles the code
    computes. *)
Theorem computeInactiveRanges_any_length (s : Z) (buffer : list Z) :
  Forall u32 buffer ->
  len buffer <= 10000000 ->
  computeInactiveRanges (JS.Num s) buffer
  = extract (decode (with_missing_modifier buffer)) s
  /\ Forall exact_in_double (decode (with_missing_modifier buffer)).
Proof.
  intros Hbuf Hlen. split.
  - unfold computeInactiveRanges, decode.
    apply computeInactiveRanges_loop_any.
  - apply decode_exact.
    + unfold with_missing_modifier. destruct (_ =? 4); [|done].
      apply Forall_app. split; [done|].
      repeat constructor; unfold u32; lia.
    + unfold with_missing_modifier. destruct (_ =? 4); [|lia].
      unfold len_of in *. rewrite length_app. simpl. lia.
Qed.

Lemma computeInactiveRanges_any_length_witness :
  computeInactiveRanges (JS.Num 0) nine_integers
  = [mkRange (mkPosition (JS.Num 2) (JS.Num 4))
             (mkPosition (JS.Num 2) (JS.Num 10));
     mkRange (mkPosition (JS.Num 3) (JS.Num 2))
             (mkPosition (JS.Num 3) (JS.Num 5))]
  /\ Forall exact_in_double (decode (with_missing_modifier nine_integers)).
Proof.
  apply (computeInactiveRanges_any_length 0 nine_integers).
  - repeat constructor; unfold u32; lia.
  - unfold len_of. simpl. lia.
Defined.
